(** * Link-tracking services: a shallow embedding

    The development follows two service modules of the repository:

    - the tracking service ([capturePhoto], [getDeviceInfo], [getLocation],
      [trackAccess]), in its current form (src/unnamed/part_001) and, in
      module [Legacy], in the older form kept at
      src/src/services/trackingService.ts;
    - the link service ([generateLink], [validateLink]) of
      src/unnamed/part_000, and its listing of accesses
      ([getLinkAccesses]) as the state machine of its store listeners;
    - the tracking page's effect ([handleTracking]) of
      src/src/pages/Tracking.tsx, over whichever [trackAccess] it imports.

    The services are asynchronous JavaScript that talks to the browser
    platform and to a realtime store.  Each function is embedded as a
    computation over an explicit [World]; what the platform answers is
    read from an [Env]; a computation ends by returning, by throwing, or
    it stays pending for ever (a promise that is never settled). *)

From Stdlib Require Import String Ascii ZArith QArith List Bool DecimalString.
From Stdlib Require Import Sorted.
From stdpp Require Import base option gmap strings.
Import ListNotations.

Local Open Scope string_scope.
Local Open Scope list_scope.

(** ** JavaScript values that the services look at *)

(** What a collaborator (the browser platform, the JavaScript engine, the
    store) throws or rejects with, described by what the services test:
    whether the value is an [instanceof Error], its [name] and its [code]
    (either may be undefined). *)
Record PlatformError : Type := {
  pe_isError : bool;
  pe_name : option string;
  pe_code : option Z
}.

(** A thrown value (or the reason of a rejected promise): an object the
    service built itself with [new Error(message)], or a collaborator's. *)
Inductive Thrown : Type :=
| NewError (message : string)
| Foreign (p : PlatformError).

Definition instanceofError (e : Thrown) : bool :=
  match e with
  | NewError _ => true
  | Foreign p => pe_isError p
  end.

Definition error_name (e : Thrown) : option string :=
  match e with
  | NewError _ => Some "Error"
  | Foreign p => pe_name p
  end.

Definition error_code (e : Thrown) : option Z :=
  match e with
  | NewError _ => None
  | Foreign p => pe_code p
  end.

(** The platform's own error shapes.  A [GeolocationPositionError] is a
    plain interface object with a numeric [code] (1 = PERMISSION_DENIED,
    2 = POSITION_UNAVAILABLE, 3 = TIMEOUT); it does not inherit from
    [Error].  A [DOMException] does inherit from [Error] and carries a
    [name], and as [code] the legacy number of that name (0 for the names
    without one, NotAllowedError among them).  A [TypeError] is what a
    property read on [undefined] or [null] throws. *)
Definition GeolocationPositionError (c : Z) : PlatformError :=
  {| pe_isError := false; pe_name := None; pe_code := Some c |}.

Definition legacy_codes : list (string * Z) :=
  [("IndexSizeError", 1); ("HierarchyRequestError", 3); ("WrongDocumentError", 4);
   ("InvalidCharacterError", 5); ("NoModificationAllowedError", 7);
   ("NotFoundError", 8); ("NotSupportedError", 9); ("InUseAttributeError", 10);
   ("InvalidStateError", 11); ("SyntaxError", 12); ("InvalidModificationError", 13);
   ("NamespaceError", 14); ("InvalidAccessError", 15); ("TypeMismatchError", 17);
   ("SecurityError", 18); ("NetworkError", 19); ("AbortError", 20);
   ("URLMismatchError", 21); ("QuotaExceededError", 22); ("TimeoutError", 23);
   ("InvalidNodeTypeError", 24); ("DataCloneError", 25)]%Z.

Definition legacy_code (n : string) : Z :=
  match List.find (fun p => String.eqb (fst p) n) legacy_codes with
  | Some p => snd p
  | None => 0%Z
  end.

Definition DOMException (n : string) : PlatformError :=
  {| pe_isError := true; pe_name := Some n; pe_code := Some (legacy_code n) |}.

Definition TypeError : PlatformError :=
  {| pe_isError := true; pe_name := Some "TypeError"; pe_code := None |}.

(** Truthiness of the two kinds of optional value the code branches on:
    an optional object is truthy when present, an optional string when
    present and not empty. *)
Definition truthy_obj {A : Type} (o : option A) : bool :=
  match o with Some _ => true | None => false end.

Definition truthy_str (o : option string) : bool :=
  match o with
  | Some s => negb (String.eqb s "")
  | None => false
  end.

(** [a || b] on optional strings. *)
Definition js_or (a b : option string) : option string :=
  if truthy_str a then a else b.

(** Decimal rendering of numbers inside template literals. *)
Definition dec_N (n : N) : string := NilZero.string_of_uint (N.to_uint n).
Definition dec_Z (z : Z) : string := NilZero.string_of_int (Z.to_int z).

(** An alternation of literal tokens, as in [/Mobile|Tablet|iPad/]: the
    match is the leftmost position of the subject at which some token
    starts, and there the first token in the order written. *)
Fixpoint first_prefix (alts : list string) (s : string) : option string :=
  match alts with
  | [] => None
  | a :: rest => if String.prefix a s then Some a else first_prefix rest s
  end.

Fixpoint regex_exec (alts : list string) (s : string) : option string :=
  match first_prefix alts s with
  | Some a => Some a
  | None =>
      match s with
      | EmptyString => None
      | String _ s' => regex_exec alts s'
      end
  end.

Definition regex_test (alts : list string) (s : string) : bool :=
  truthy_obj (regex_exec alts s).

(** [toUpperCase] as it acts on ASCII strings: the letters a-z are
    raised, every other character is kept.  On characters outside ASCII
    the platform's function does more (it may even change the length);
    the statements that use this one are about ASCII strings, such as
    the two-letter country codes. *)
Fixpoint toUpperCase (s : string) : string :=
  match s with
  | EmptyString => EmptyString
  | String c s' =>
      let n := nat_of_ascii c in
      String (if (97 <=? n)%nat && (n <=? 122)%nat then ascii_of_nat (n - 32) else c)
             (toUpperCase s')
  end.

(** ** Data model *)

Record Coords : Type := { c_latitude : Q; c_longitude : Q }.

(** [TrackingData['location']]. *)
Record Location : Type := {
  latitude : Q;
  longitude : Q;
  country : option string;
  countryCode : option string;
  city : option string
}.

(** [TrackingData['device']]. *)
Record DeviceInfo : Type := {
  type : string;
  os : string;
  browser : string;
  screenResolution : string
}.

Record Errors : Type := {
  err_location : option string;
  err_photo : option string;
  err_save : option string
}.

Record TrackingData : Type := {
  timestamp : Z;
  ip : option string;
  location : option Location;
  device : option DeviceInfo;
  photo : option string;
  errors : Errors
}.

(** [{ location?, error? }] and [{ photo?, error? }]. *)
Record LocationResult : Type := {
  lr_location : option Location;
  lr_error : option string
}.

Record PhotoResult : Type := {
  pr_photo : option string;
  pr_error : option string
}.

Record LinkData : Type := {
  userId : string;
  createdAt : Z;
  url : string
}.

(** What the realtime store holds under a path. *)
Inductive DbValue : Type :=
| DbLink (l : LinkData)
| DbAccess (t : TrackingData).

(** The body of a reverse-geocoding answer: [data.address] with the four
    keys the service reads. *)
Record Address : Type := {
  a_country : option string;
  a_country_code : option string;
  a_city : option string;
  a_town : option string
}.

Record GeoData : Type := { address : option Address }.

Record MediaStream : Type := { getTracks : list nat }.

(** ** The world the services run in *)

(** Fields of the record under construction that [trackAccess] assigns. *)
Inductive Field : Type :=
| FLocation | FPhoto | FErrLocation | FErrPhoto | FErrSave.

(** Observable steps, in the order they happen. *)
Inductive Event : Type :=
| CallDateNow
| ReadUserAgent
| ReadScreen
| CallGetCurrentPosition
| CallFetch (lat lon : Q)
| CallJson
| CallGetUserMedia
| VideoPlay
| CanvasGetContext
| CanvasDrawImage
| CanvasToDataURL
| TrackStop (t : nat)
| PromiseResolve
| RecordWrite (f : Field)
| DbSet (path : string)
| DbOnValue (path : string)
| SnapshotExists (path : string) (found : bool)
| ConsoleError (label : string).

(** The mutable part: the realtime store, the camera tracks that are
    capturing, the trace of steps so far, how many times the clock was
    read, and how many store listeners are registered. *)
Record World : Type := {
  store : gmap string DbValue;
  live_tracks : list nat;
  trace : list Event;
  clock : nat;
  listeners : nat
}.

(** What the platform and the store answer during one visit.  An [Env]
    fixes an answer for every request: the location request, the
    geocoder, the camera request and the store each resolve or reject.  A
    visit in which one of them is never answered (a permission prompt
    left open, a write never acknowledged) is not described by an [Env]:
    the statements below are about the visits in which every request is
    answered.  The metadata-ready notification is different: the code
    itself waits for it, so whether it ever comes is part of the
    [Env]. *)
Record Env : Type := {
  (** the value of the k-th [Date.now()] *)
  date_now : nat -> Z;
  (** [navigator.userAgent]; [None] when the read throws *)
  userAgent : option string;
  (** [window.screen] as (width, height); [None] when it cannot be read *)
  screen : option (N * N);
  (** the platform location request: rejected with a reason, or a fix *)
  getCurrentPosition : PlatformError + Coords;
  (** the reverse-geocoding request: [fetch] rejected, or a response whose
      [json()] is rejected or yields a body ([None] is the JSON [null]) *)
  fetch_reverse : PlatformError + (PlatformError + option GeoData);
  (** the camera request *)
  getUserMedia : PlatformError + MediaStream;
  (** whether the video's metadata-ready notification is ever delivered *)
  loadedmetadata : bool;
  (** whether [canvas.getContext('2d')] yields a drawing surface *)
  getContext2d : bool;
  (** what follows ["data:"] in the URL that [canvas.toDataURL] yields *)
  toDataURL : string;
  (** [ref(database, path)]: [Some e] when the path is refused with [e] *)
  db_ref_error : string -> option PlatformError;
  (** a store write at a path: [Some e] when it is rejected with [e] *)
  db_write : string -> option PlatformError;
  (** subscribing at a path: [Some e] when [onValue] throws [e] *)
  db_subscribe : string -> option PlatformError;
  uuidv4 : string;
  origin : string
}.

Definition set_store (f : gmap string DbValue -> gmap string DbValue) (w : World) : World :=
  {| store := f (store w); live_tracks := live_tracks w; trace := trace w;
     clock := clock w; listeners := listeners w |}.

Definition set_live_tracks (f : list nat -> list nat) (w : World) : World :=
  {| store := store w; live_tracks := f (live_tracks w); trace := trace w;
     clock := clock w; listeners := listeners w |}.

Definition emit (e : Event) (w : World) : World :=
  {| store := store w; live_tracks := live_tracks w; trace := trace w ++ [e];
     clock := clock w; listeners := listeners w |}.

Definition tick (w : World) : World :=
  {| store := store w; live_tracks := live_tracks w; trace := trace w;
     clock := S (clock w); listeners := listeners w |}.

Definition add_listener (w : World) : World :=
  {| store := store w; live_tracks := live_tracks w; trace := trace w;
     clock := clock w; listeners := S (listeners w) |}.

(** ** Computations *)

Inductive Outcome (A : Type) : Type :=
| Returned (a : A)
| Raised (e : Thrown)
| Pending.

Arguments Returned {A} a.
Arguments Raised {A} e.
Arguments Pending {A}.

(** A computation over a state [S]: the state it leaves is kept also when
    it throws, as an exception does not undo what was done before it. *)
Definition Eff (S A : Type) : Type := S -> Outcome A * S.

Definition ret {S A : Type} (a : A) : Eff S A := fun s => (Returned a, s).

Definition bind {S A B : Type} (m : Eff S A) (k : A -> Eff S B) : Eff S B :=
  fun s =>
    match m s with
    | (Returned a, s') => k a s'
    | (Raised e, s') => (Raised e, s')
    | (Pending, s') => (Pending, s')
    end.

Definition throw {S A : Type} (e : Thrown) : Eff S A := fun s => (Raised e, s).

(** Awaiting a promise that nothing settles. *)
Definition never {S A : Type} : Eff S A := fun s => (Pending, s).

(** [try { m } catch (e) { h e }]. *)
Definition try_catch {S A : Type} (m : Eff S A) (h : Thrown -> Eff S A) : Eff S A :=
  fun s =>
    match m s with
    | (Raised e, s') => h e s'
    | r => r
    end.

Declare Scope eff_scope.
Delimit Scope eff_scope with eff.
Notation "x <- m ;; k" := (bind m (fun x => k))
  (at level 100, m at next level, right associativity) : eff_scope.
Notation "m ;; k" := (bind m (fun _ => k))
  (at level 100, right associativity) : eff_scope.
Local Open Scope eff_scope.

(** A block with a local variable of type [L]: the body runs over the pair
    of the local and the outer state. *)
Definition lift {L W A : Type} (m : Eff W A) : Eff (L * W) A :=
  fun s =>
    match m (snd s) with
    | (r, w') => (r, (fst s, w'))
    end.

Definition read_local {L W : Type} : Eff (L * W) L :=
  fun s => (Returned (fst s), s).

Definition update_local {L W : Type} (f : L -> L) : Eff (L * W) unit :=
  fun s => (Returned tt, (f (fst s), snd s)).

Definition with_local {L W A : Type} (init : L) (body : Eff (L * W) A) : Eff W A :=
  fun w =>
    match body (init, w) with
    | (r, s') => (r, snd s')
    end.

Definition log (e : Event) : Eff World unit := fun w => (Returned tt, emit e w).

Definition console_error (label : string) : Eff World unit := log (ConsoleError label).

(** Awaiting a platform promise that was answered: the answer is its
    value or its rejection. *)
Definition settle {A : Type} (r : PlatformError + A) : Eff World A :=
  match r with
  | inl e => throw (Foreign e)
  | inr a => ret a
  end.

(** ** The tracking service (src/unnamed/part_001) *)

Section TrackingService.

Variable env : Env.

(** [Date.now()]. *)
Definition Date_now : Eff World Z :=
  fun w => (Returned (date_now env (clock w)), tick (emit CallDateNow w)).

Definition read_userAgent : Eff World string :=
  log ReadUserAgent ;;
  match userAgent env with
  | Some ua => ret ua
  | None => throw (Foreign TypeError)
  end.

Definition read_screen : Eff World (N * N) :=
  log ReadScreen ;;
  match screen env with
  | Some wh => ret wh
  | None => throw (Foreign TypeError)
  end.

Definition unknown_device : DeviceInfo :=
  {| type := "Unknown"; os := "Unknown"; browser := "Unknown";
     screenResolution := "Unknown" |}.

Definition getDeviceInfo : Eff World DeviceInfo :=
  try_catch
    (ua <- read_userAgent ;;
     scr <- read_screen ;;
     ret {| type :=
              if regex_test ["Mobile"; "Tablet"; "iPad"; "iPhone"; "Android"] ua
              then "Mobile" else "Desktop";
            os :=
              default "Unknown"
                (js_or (regex_exec ["Windows"; "Mac"; "Linux"; "Android"; "iOS"] ua)
                       (Some "Unknown"));
            browser :=
              default "Unknown"
                (js_or (regex_exec ["Chrome"; "Firefox"; "Safari"; "Edge"] ua)
                       (Some "Unknown"));
            screenResolution := dec_N (fst scr) ++ "x" ++ dec_N (snd scr) |})
    (fun error =>
       console_error "Error getting device info:" ;;
       ret unknown_device).

(** [error.code === 1] and [error.name === 'NotAllowedError']. *)
Definition code_is (e : Thrown) (n : Z) : bool :=
  match error_code e with
  | Some c => Z.eqb c n
  | None => false
  end.

Definition name_is (e : Thrown) (n : string) : bool :=
  match error_name e with
  | Some m => String.eqb m n
  | None => false
  end.

Definition await_getCurrentPosition : Eff World Coords :=
  log CallGetCurrentPosition ;;
  settle (getCurrentPosition env).

Definition await_fetch (position : Coords) : Eff World (PlatformError + option GeoData) :=
  log (CallFetch (c_latitude position) (c_longitude position)) ;;
  settle (fetch_reverse env).

Definition await_json (response : PlatformError + option GeoData) : Eff World (option GeoData) :=
  log CallJson ;;
  settle response.

(** [data.address]: a property read, which throws on [null]. *)
Definition data_address (data : option GeoData) : Eff World (option Address) :=
  match data with
  | Some d => ret (address d)
  | None => throw (Foreign TypeError)
  end.

Definition getLocation : Eff World LocationResult :=
  try_catch
    (position <- await_getCurrentPosition ;;
     try_catch
       (response <- await_fetch position ;;
        data <- await_json response ;;
        addr <- data_address data ;;
        ret {| lr_location :=
                 Some {| latitude := c_latitude position;
                         longitude := c_longitude position;
                         country := addr ≫= a_country;
                         countryCode := toUpperCase <$> (addr ≫= a_country_code);
                         city := js_or (addr ≫= a_city) (addr ≫= a_town) |};
               lr_error := None |})
       (fun geoError =>
          ret {| lr_location :=
                   Some {| latitude := c_latitude position;
                           longitude := c_longitude position;
                           country := None;
                           countryCode := None;
                           city := None |};
                 lr_error := None |}))
    (fun error =>
       console_error "Error getting location:" ;;
       let errorMessage :=
         if instanceofError error && code_is error 1
         then "Location access denied by user"
         else "Location not available or access denied" in
       ret {| lr_location := None; lr_error := Some errorMessage |}).

(** The camera request, once answered: a granted request starts the
    stream's tracks. *)
Definition await_getUserMedia : Eff World MediaStream :=
  log CallGetUserMedia ;;
  match getUserMedia env with
  | inl e => throw (Foreign e)
  | inr stream =>
      fun w => (Returned stream, set_live_tracks (fun l => l ++ getTracks stream) w)
  end.

Definition track_stop (t : nat) : Eff World unit :=
  fun w =>
    (Returned tt,
     set_live_tracks (List.filter (fun u => negb (Nat.eqb u t))) (emit (TrackStop t) w)).

(** [tracks.forEach(track => track.stop())]. *)
Fixpoint forEach_stop (tracks : list nat) : Eff World unit :=
  match tracks with
  | [] => ret tt
  | t :: rest => track_stop t ;; forEach_stop rest
  end.

Definition canvas_getContext : Eff World bool :=
  log CanvasGetContext ;;
  ret (getContext2d env).

Definition canvas_toDataURL : Eff World string :=
  log CanvasToDataURL ;;
  ret ("data:" ++ toDataURL env)%string.

Definition resolve {A : Type} (v : A) : Eff World A :=
  log PromiseResolve ;;
  ret v.

(** The promise that [capturePhoto] returns is settled only from the
    [onloadedmetadata] handler; when the notification never comes, the
    promise stays pending.  The handler runs after the [try] block was
    left; none of its steps throws here, so it is written in place. *)
Definition capturePhoto : Eff World PhotoResult :=
  try_catch
    (stream <- await_getUserMedia ;;
     if loadedmetadata env then
       log VideoPlay ;;
       ctx <- canvas_getContext ;;
       if ctx then
         log CanvasDrawImage ;;
         photo <- canvas_toDataURL ;;
         forEach_stop (getTracks stream) ;;
         resolve {| pr_photo := Some photo; pr_error := None |}
       else
         resolve {| pr_photo := None;
                    pr_error := Some "Could not get canvas context" |}
     else never)
    (fun error =>
       console_error "Error capturing photo:" ;;
       let errorMessage :=
         if instanceofError error && name_is error "NotAllowedError"
         then "Camera access denied by user"
         else "Camera not available or access denied" in
       ret {| pr_photo := None; pr_error := Some errorMessage |}).

(** [ref(database, path)]. *)
Definition db_ref (path : string) : Eff World string :=
  match db_ref_error env path with
  | Some e => throw (Foreign e)
  | None => ret path
  end.

(** [set(ref, value)], once the store has answered: the write is accepted
    and the value stored under the path, or it is rejected and the store
    is left as it was. *)
Definition db_set (path : string) (v : DbValue) : Eff World unit :=
  log (DbSet path) ;;
  match db_write env path with
  | Some e => throw (Foreign e)
  | None => fun w => (Returned tt, set_store (insert path v) w)
  end.

Definition set_location (l : option Location) (t : TrackingData) : TrackingData :=
  {| timestamp := timestamp t; ip := ip t; location := l; device := device t;
     photo := photo t; errors := errors t |}.

Definition set_photo (p : option string) (t : TrackingData) : TrackingData :=
  {| timestamp := timestamp t; ip := ip t; location := location t; device := device t;
     photo := p; errors := errors t |}.

Definition set_errors (f : Errors -> Errors) (t : TrackingData) : TrackingData :=
  {| timestamp := timestamp t; ip := ip t; location := location t; device := device t;
     photo := photo t; errors := f (errors t) |}.

Definition set_err_location (m : option string) : TrackingData -> TrackingData :=
  set_errors (fun e =>
    {| err_location := m; err_photo := err_photo e; err_save := err_save e |}).

Definition set_err_photo (m : option string) : TrackingData -> TrackingData :=
  set_errors (fun e =>
    {| err_location := err_location e; err_photo := m; err_save := err_save e |}).

Definition set_err_save (m : option string) : TrackingData -> TrackingData :=
  set_errors (fun e =>
    {| err_location := err_location e; err_photo := err_photo e; err_save := m |}).

(** An assignment to a field of the local [trackingData]. *)
Definition assign (f : Field) (upd : TrackingData -> TrackingData)
  : Eff (TrackingData * World) unit :=
  update_local upd ;;
  lift (log (RecordWrite f)).

Definition merge_location (locationResult : LocationResult)
  : Eff (TrackingData * World) unit :=
  if truthy_obj (lr_location locationResult)
  then assign FLocation (set_location (lr_location locationResult))
  else if truthy_str (lr_error locationResult)
       then assign FErrLocation (set_err_location (lr_error locationResult))
       else ret tt.

Definition merge_photo (photoResult : PhotoResult)
  : Eff (TrackingData * World) unit :=
  if truthy_str (pr_photo photoResult)
  then assign FPhoto (set_photo (pr_photo photoResult))
  else if truthy_str (pr_error photoResult)
       then assign FErrPhoto (set_err_photo (pr_error photoResult))
       else ret tt.

Definition save_access (linkId : string) : Eff (TrackingData * World) unit :=
  try_catch
    (now <- lift Date_now ;;
     accessRef <- lift (db_ref ("accesses/" ++ linkId ++ "/" ++ dec_Z now)) ;;
     trackingData <- read_local ;;
     lift (db_set accessRef (DbAccess trackingData)))
    (fun saveError =>
       lift (console_error "Error saving tracking data:") ;;
       assign FErrSave (set_err_save (Some "Failed to save tracking data"))).

Definition trackAccess (linkId : string) : Eff World TrackingData :=
  now <- Date_now ;;
  dev <- getDeviceInfo ;;
  with_local
    {| timestamp := now; ip := None; location := None; device := Some dev;
       photo := None;
       errors := {| err_location := None; err_photo := None; err_save := None |} |}
    (try_catch
       (locationResult <- lift getLocation ;;
        merge_location locationResult ;;
        photoResult <- lift capturePhoto ;;
        merge_photo photoResult ;;
        save_access linkId ;;
        read_local)
       (fun error =>
          lift (console_error "Error in trackAccess:") ;;
          trackingData <- read_local ;;
          ret (set_err_save (Some "Unexpected error during tracking") trackingData))).

End TrackingService.

(** ** The older tracking service (src/src/services/trackingService.ts)

    [getDeviceInfo] is the same function there.  [getLocation] has one
    [try] around both the location request and the reverse geocoding,
    both services answer every failure with one fixed message, and
    [trackAccess] logs and rethrows instead of annotating the record. *)

Module Legacy.
Section LegacyTrackingService.

Variable env : Env.

Definition getLocation : Eff World LocationResult :=
  try_catch
    (position <- await_getCurrentPosition env ;;
     response <- await_fetch env position ;;
     data <- await_json response ;;
     addr <- data_address data ;;
     ret {| lr_location :=
              Some {| latitude := c_latitude position;
                      longitude := c_longitude position;
                      country := addr ≫= a_country;
                      countryCode := toUpperCase <$> (addr ≫= a_country_code);
                      city := js_or (addr ≫= a_city) (addr ≫= a_town) |};
            lr_error := None |})
    (fun error =>
       console_error "Error getting location:" ;;
       ret {| lr_location := None; lr_error := Some "Location access denied" |}).

Definition capturePhoto : Eff World PhotoResult :=
  try_catch
    (stream <- await_getUserMedia env ;;
     if loadedmetadata env then
       log VideoPlay ;;
       ctx <- canvas_getContext env ;;
       if ctx then
         log CanvasDrawImage ;;
         photo <- canvas_toDataURL env ;;
         forEach_stop (getTracks stream) ;;
         resolve {| pr_photo := Some photo; pr_error := None |}
       else
         resolve {| pr_photo := None;
                    pr_error := Some "Could not get canvas context" |}
     else never)
    (fun error =>
       console_error "Error capturing photo:" ;;
       ret {| pr_photo := None; pr_error := Some "Camera access denied" |}).

Definition trackAccess (linkId : string) : Eff World TrackingData :=
  try_catch
    (now <- Date_now env ;;
     dev <- getDeviceInfo env ;;
     with_local
       {| timestamp := now; ip := None; location := None; device := Some dev;
          photo := None;
          errors := {| err_location := None; err_photo := None; err_save := None |} |}
       (locationResult <- lift getLocation ;;
        merge_location locationResult ;;
        photoResult <- lift capturePhoto ;;
        merge_photo photoResult ;;
        now' <- lift (Date_now env) ;;
        accessRef <- lift (db_ref env ("accesses/" ++ linkId ++ "/" ++ dec_Z now')) ;;
        trackingData <- read_local ;;
        lift (db_set env accessRef (DbAccess trackingData)) ;;
        read_local))
    (fun error =>
       console_error "Error tracking access:" ;;
       throw error).

End LegacyTrackingService.
End Legacy.

(** ** The link service (src/unnamed/part_000) *)

(** What [validateLink] resolves to: declared a boolean, but the value
    that [onValue] returns is the handle that ends the subscription. *)
Inductive LinkCheck : Type :=
| JsBool (b : bool)
| Unsubscribe (listener : nat).

Section LinkService.

Variable env : Env.

(** [onValue(ref, callback)]: registers the listener and returns its
    unsubscribe handle.  The store hands the listener a snapshot of the
    path; whatever the callback returns is dropped by the store. *)
Definition onValue (path : string) (callback : bool -> bool) : Eff World nat :=
  log (DbOnValue path) ;;
  match db_subscribe env path with
  | Some e => throw (Foreign e)
  | None =>
      fun w =>
        let snapshot_exists := truthy_obj (store w !! path) in
        (Returned (listeners w),
         add_listener (emit (SnapshotExists path (callback snapshot_exists)) w))
  end.

Definition generateLink (userId : string) : Eff World string :=
  if negb (truthy_str (Some userId))
  then throw (NewError "User must be authenticated to generate links")
  else
    let uniqueId := uuidv4 env in
    let linkId := (uniqueId ++ "_" ++ userId)%string in
    linkRef <- db_ref env ("links/" ++ linkId) ;;
    let baseUrl := origin env in
    now <- Date_now env ;;
    let linkData :=
      {| userId := userId; createdAt := now;
         url := (baseUrl ++ "/track/" ++ linkId)%string |} in
    try_catch
      (db_set env linkRef (DbLink linkData) ;;
       ret (url linkData))
      (fun error =>
         console_error "Error generating link:" ;;
         throw error).

Definition validateLink (linkId : string) : Eff World LinkCheck :=
  try_catch
    (linkRef <- db_ref env ("links/" ++ linkId) ;;
     snapshot <- onValue linkRef (fun snapshot_exists => snapshot_exists) ;;
     ret (Unsubscribe snapshot))
    (fun error =>
       console_error "Error validating link:" ;;
       ret (JsBool false)).

End LinkService.

(** ** The link-access listing (src/unnamed/part_000, [getLinkAccesses])

    [getLinkAccesses] subscribes to the caller's links; each links
    snapshot allocates one [allAccesses] array and subscribes to the
    accesses of every link, all those listeners pushing into that one
    array.  What the store delivers later is an event; the listing is the
    state machine that the listeners make of those events. *)

Section LinkAccesses.

(** The keys of a stored access other than [linkId] and [timestamp]. *)
Variable Payload : Type.

(** [Number(key)] on a child key of the store; [None] is NaN. *)
Variable Number : string -> option Z.

(** A value under [accesses/<linkId>/<key>], as the spread sees it: its
    own [linkId] and [timestamp] keys, when it has them, and the rest. *)
Record StoredAccess : Type := {
  own_linkId : option string;
  own_timestamp : option Z;
  payload : Payload
}.

(** An element of [allAccesses]; the timestamp is a number or NaN. *)
Record LinkAccess : Type := {
  la_linkId : string;
  la_timestamp : option Z;
  la_payload : Payload
}.

(** [{ linkId, timestamp: Number(timestamp), ...data }]: the keys of
    [data] come last and win. *)
Definition access_entry (linkId key : string) (data : StoredAccess) : LinkAccess :=
  {| la_linkId := default linkId (own_linkId data);
     la_timestamp :=
       match own_timestamp data with
       | Some t => Some t
       | None => Number key
       end;
     la_payload := payload data |}.

(** The comparator [(a, b) => b.timestamp - a.timestamp] is positive:
    [b] is strictly newer than [a].  A NaN difference counts as zero. *)
Definition newer (b a : LinkAccess) : bool :=
  match la_timestamp b, la_timestamp a with
  | Some x, Some y => (y <? x)%Z
  | _, _ => false
  end.

(** [Array.prototype.sort] is a stable sort; here by insertion. *)
Fixpoint sort_insert (x : LinkAccess) (l : list LinkAccess) : list LinkAccess :=
  match l with
  | [] => [x]
  | y :: rest => if newer y x then y :: sort_insert x rest else x :: y :: rest
  end.

Fixpoint sort_newest_first (l : list LinkAccess) : list LinkAccess :=
  match l with
  | [] => []
  | x :: rest => sort_insert x (sort_newest_first rest)
  end.

(** The listing after some deliveries: whether the links listener is
    registered, the [allAccesses] arrays allocated so far, for each
    accesses listener its link and the array it closes over, and the
    arguments the caller's callback was invoked with, oldest first. *)
Record Listing : Type := {
  links_listener : bool;
  arrays : list (list LinkAccess);
  accesses_listeners : list (string * nat);
  callback_calls : list (list LinkAccess)
}.

Definition call_callback (data : list LinkAccess) (d : Listing) : Listing :=
  {| links_listener := links_listener d; arrays := arrays d;
     accesses_listeners := accesses_listeners d;
     callback_calls := callback_calls d ++ [data] |}.

Definition getLinkAccesses (userId : string) : Listing :=
  if negb (truthy_str (Some userId))
  then {| links_listener := false; arrays := []; accesses_listeners := [];
          callback_calls := [[]] |}
  else {| links_listener := true; arrays := []; accesses_listeners := [];
          callback_calls := [] |}.

(** The links listener: [linksData] is [snapshot.val()], [None] for null. *)
Definition on_links_snapshot (linksData : option (list (string * LinkData)))
    (d : Listing) : Listing :=
  if links_listener d then
    match linksData with
    | None => call_callback [] d
    | Some links =>
        let allAccesses := length (arrays d) in
        {| links_listener := true;
           arrays := arrays d ++ [[]];
           accesses_listeners :=
             accesses_listeners d ++ map (fun kv => (fst kv, allAccesses)) links;
           callback_calls := callback_calls d |}
    end
  else d.

(** The [k]-th accesses listener. *)
Definition on_accesses_snapshot (k : nat)
    (accessesData : option (list (string * StoredAccess))) (d : Listing) : Listing :=
  match accesses_listeners d !! k with
  | Some (linkId, n) =>
      let allAccesses := default [] (arrays d !! n) in
      let pushed :=
        match accessesData with
        | Some entries =>
            allAccesses ++ map (fun kv => access_entry linkId (fst kv) (snd kv)) entries
        | None => allAccesses
        end in
      let sorted := sort_newest_first pushed in
      {| links_listener := links_listener d;
         arrays := <[n := sorted]> (arrays d);
         accesses_listeners := accesses_listeners d;
         callback_calls := callback_calls d ++ [sorted] |}
  | None => d
  end.

Inductive Delivery : Type :=
| LinksSnapshot (linksData : option (list (string * LinkData)))
| AccessesSnapshot (k : nat) (accessesData : option (list (string * StoredAccess))).

Definition deliver (d : Listing) (ev : Delivery) : Listing :=
  match ev with
  | LinksSnapshot linksData => on_links_snapshot linksData d
  | AccessesSnapshot k accessesData => on_accesses_snapshot k accessesData d
  end.

Definition deliver_all (evs : list Delivery) (d : Listing) : Listing :=
  fold_left deliver evs d.

End LinkAccesses.

Arguments own_linkId {Payload} _.
Arguments own_timestamp {Payload} _.
Arguments payload {Payload} _.
Arguments la_linkId {Payload} _.
Arguments la_timestamp {Payload} _.
Arguments la_payload {Payload} _.
Arguments newer {Payload} b a.
Arguments sort_insert {Payload} x l.
Arguments sort_newest_first {Payload} l.
Arguments links_listener {Payload} _.
Arguments arrays {Payload} _.
Arguments accesses_listeners {Payload} _.
Arguments callback_calls {Payload} _.
Arguments call_callback {Payload} data d.
Arguments on_links_snapshot {Payload} linksData d.
Arguments LinksSnapshot {Payload} linksData.
Arguments access_entry {Payload} Number linkId key data.
Arguments on_accesses_snapshot {Payload} Number k accessesData d.
Arguments deliver {Payload} Number d ev.
Arguments deliver_all {Payload} Number evs d.
Arguments AccessesSnapshot {Payload} k accessesData.

(** ** The tracking page (src/src/pages/Tracking.tsx, [handleTracking])

    The component state that the effect drives: the status line, the
    error line, the progress bar, the warnings, and the routes handed to
    [navigate] by the redirect it schedules. *)

Record Page : Type := {
  page_status : string;
  page_error : string;
  page_progress : Z;
  permissionWarnings : list string;
  navigations : list string
}.

Definition initial_page : Page :=
  {| page_status := "Iniciando rastreamento..."; page_error := ""; page_progress := 0;
     permissionWarnings := []; navigations := [] |}.

Section TrackingPage.

(** The [trackAccess] that the page imports. *)
Variable service : string -> Eff World TrackingData.

Definition setStatus (s : string) : Eff (Page * World) unit :=
  update_local (fun p =>
    {| page_status := s; page_error := page_error p; page_progress := page_progress p;
       permissionWarnings := permissionWarnings p; navigations := navigations p |}).

Definition setError (s : string) : Eff (Page * World) unit :=
  update_local (fun p =>
    {| page_status := page_status p; page_error := s; page_progress := page_progress p;
       permissionWarnings := permissionWarnings p; navigations := navigations p |}).

Definition setProgress (n : Z) : Eff (Page * World) unit :=
  update_local (fun p =>
    {| page_status := page_status p; page_error := page_error p; page_progress := n;
       permissionWarnings := permissionWarnings p; navigations := navigations p |}).

Definition setPermissionWarnings (l : list string) : Eff (Page * World) unit :=
  update_local (fun p =>
    {| page_status := page_status p; page_error := page_error p;
       page_progress := page_progress p;
       permissionWarnings := l; navigations := navigations p |}).

(** [setTimeout(() => navigate(route), 2000)]. *)
Definition schedule_navigate (route : string) : Eff (Page * World) unit :=
  update_local (fun p =>
    {| page_status := page_status p; page_error := page_error p;
       page_progress := page_progress p;
       permissionWarnings := permissionWarnings p;
       navigations := navigations p ++ [route] |}).

(** [await new Promise(resolve => setTimeout(resolve, 1000))]: always
    settles; the delay itself is not part of the state. *)
Definition sleep : Eff (Page * World) unit := ret tt.

Definition location_warning : string :=
  "Localização não disponível - permissão negada".

Definition photo_warning : string :=
  "Foto não disponível - permissão negada".

Definition collect_warnings (result : TrackingData) : list string :=
  (if truthy_str (err_location (errors result)) then [location_warning] else []) ++
  (if truthy_str (err_photo (errors result)) then [photo_warning] else []).

(** The steps shown before the service is called at all. *)
Definition announce_steps : Eff (Page * World) unit :=
  setStatus "Coletando informações do dispositivo..." ;;
  setProgress 25 ;;
  sleep ;;
  setStatus "Obtendo localização..." ;;
  setProgress 50 ;;
  sleep ;;
  setStatus "Capturando foto..." ;;
  setProgress 75 ;;
  sleep ;;
  setStatus "Salvando informações...".

Definition handleTracking (linkId : option string) : Eff (Page * World) unit :=
  match (if truthy_str linkId then linkId else None) with
  | None => setError "Link inválido"
  | Some linkId =>
      try_catch
        (announce_steps ;;
         result <- lift (service linkId) ;;
         setProgress 100 ;;
         setPermissionWarnings (collect_warnings result) ;;
         setStatus "Rastreamento concluído!" ;;
         schedule_navigate "/")
        (fun error =>
           lift (console_error "Error during tracking:") ;;
           setError "Ocorreu um erro durante o rastreamento")
  end.

End TrackingPage.

Arguments getDeviceInfo : simpl never.
Arguments getLocation : simpl never.
Arguments capturePhoto : simpl never.
Arguments Legacy.getLocation : simpl never.
Arguments Legacy.capturePhoto : simpl never.

(** ** Vocabulary of the statements *)

(** [w] with further events appended to its trace. *)
Definition emits (evs : list Event) (w : World) : World :=
  {| store := store w; live_tracks := live_tracks w; trace := trace w ++ evs;
     clock := clock w; listeners := listeners w |}.

(** Which step of the orchestration an event belongs to. *)
Definition is_location_event (e : Event) : bool :=
  match e with
  | CallGetCurrentPosition | CallFetch _ _ | CallJson => true
  | RecordWrite FLocation | RecordWrite FErrLocation => true
  | ConsoleError l => String.eqb l "Error getting location:"
  | _ => false
  end.

Definition is_photo_event (e : Event) : bool :=
  match e with
  | CallGetUserMedia | VideoPlay | CanvasGetContext | CanvasDrawImage
  | CanvasToDataURL | TrackStop _ | PromiseResolve => true
  | RecordWrite FPhoto | RecordWrite FErrPhoto => true
  | ConsoleError l => String.eqb l "Error capturing photo:"
  | _ => false
  end.

Definition is_save_event (e : Event) : bool :=
  match e with
  | DbSet _ | RecordWrite FErrSave => true
  | ConsoleError l => String.eqb l "Error saving tracking data:"
  | _ => false
  end.

(** Exactly one of a data field and its error annotation is present. *)
Definition exactly_one {A B : Type} (data : option A) (error : option B) : Prop :=
  (is_Some data /\ error = None) \/ (data = None /\ is_Some error).

(** The same for a step result, with the truthiness the merge tests. *)
Definition one_sided {A : Type} (data : option A) (error : option string) : Prop :=
  (is_Some data /\ error = None) \/ (data = None /\ truthy_str error = true).

(** The tracks of [l] still capturing once those of [ts] were stopped. *)
Definition stop_all (ts : list nat) (l : list nat) : list nat :=
  fold_left (fun l t => List.filter (fun u => negb (Nat.eqb u t)) l) ts l.

(** The photo step settles unless the camera was granted and the
    metadata-ready notification never arrives. *)
Definition photo_settles (env : Env) : bool :=
  match getUserMedia env with
  | inl _ => true
  | inr _ => loadedmetadata env
  end.

Definition photo_shape (env : Env) (o : Outcome PhotoResult) : Prop :=
  match o with
  | Returned r =>
      photo_settles env = true /\
      ((truthy_str (pr_photo r) = true /\ pr_error r = None) \/
       (pr_photo r = None /\ truthy_str (pr_error r) = true))
  | Raised _ => False
  | Pending => photo_settles env = false
  end.

(** The path [trackAccess] writes to: the clock is read once for the
    record's timestamp and a second time for the path. *)
Definition access_path (env : Env) (linkId : string) (w : World) : string :=
  "accesses/" ++ linkId ++ "/" ++ dec_Z (date_now env (S (clock w))).

Definition link_path (linkId : string) : string := "links/" ++ linkId.

(** The persistence step fails: the path is refused or the write is. *)
Definition save_rejected (env : Env) (path : string) : bool :=
  match db_ref_error env path with
  | Some _ => true
  | None => match db_write env path with Some _ => true | None => false end
  end.

(** The store read of [validateLink] throws. *)
Definition store_read_throws (env : Env) (path : string) : bool :=
  match db_ref_error env path with
  | Some _ => true
  | None => match db_subscribe env path with Some _ => true | None => false end
  end.

(** The reverse geocoding ends in the inner [catch]: [fetch] rejected,
    [json()] rejected, or a [null] body. *)
Definition geocoding_fails (env : Env) : bool :=
  match fetch_reverse env with
  | inl _ => true
  | inr (inl _) => true
  | inr (inr None) => true
  | inr (inr (Some _)) => false
  end.

Definition coordinates_only (pos : Coords) : Location :=
  {| latitude := c_latitude pos; longitude := c_longitude pos;
     country := None; countryCode := None; city := None |}.

(** The record that the three acquisition steps add up to. *)
Definition collected (now : Z) (dev : DeviceInfo) (loc : LocationResult) (pho : PhotoResult)
  : TrackingData :=
  {| timestamp := now; ip := None; location := lr_location loc; device := Some dev;
     photo := pr_photo pho;
     errors := {| err_location := lr_error loc; err_photo := pr_error pho;
                  err_save := None |} |}.

Definition location_field (loc : LocationResult) : Field :=
  if truthy_obj (lr_location loc) then FLocation else FErrLocation.

Definition photo_field (pho : PhotoResult) : Field :=
  if truthy_str (pr_photo pho) then FPhoto else FErrPhoto.

Definition location_message (e : PlatformError) : string :=
  if pe_isError e && code_is (Foreign e) 1
  then "Location access denied by user"
  else "Location not available or access denied".

Definition camera_message (e : PlatformError) : string :=
  if pe_isError e && name_is (Foreign e) "NotAllowedError"
  then "Camera access denied by user"
  else "Camera not available or access denied".

Definition auth_message : string := "User must be authenticated to generate links".

Definition new_link (env : Env) (userId : string) (w : World) : LinkData :=
  {| userId := userId; createdAt := date_now env (clock w);
     url := (origin env ++ "/track/" ++ uuidv4 env ++ "_" ++ userId)%string |}.

(** ** Concrete visits *)

Definition blank_world : World :=
  {| store := ∅; live_tracks := []; trace := []; clock := 0; listeners := 0 |}.

(** A visit from a phone; what varies is the answer to the location
    request, to the camera request, whether a drawing surface exists, and
    whether the store accepts writes. *)
Definition visit (position : PlatformError + Coords)
    (camera : PlatformError + MediaStream) (surface : bool)
    (write : option PlatformError) : Env :=
  {| date_now := fun k => (1700000000000 + Z.of_nat k)%Z;
     userAgent := Some "Mozilla/5.0 (Linux; Android 10) Chrome/99 Mobile Safari";
     screen := Some (1080%N, 1920%N);
     getCurrentPosition := position;
     fetch_reverse := inl TypeError;
     getUserMedia := camera;
     loadedmetadata := true;
     getContext2d := surface;
     toDataURL := "image/jpeg;base64,AAAA";
     db_ref_error := fun _ => None;
     db_write := fun _ => write;
     db_subscribe := fun _ => None;
     uuidv4 := "1b9d6bcd-bbfd-4b2d-9b5d-ab8dfbbd4bed";
     origin := "https://example.org" |}.

Definition fix_10_20 : Coords := {| c_latitude := 10; c_longitude := 20 |}.

(** Location granted at (10, 20), geocoding unreachable, camera denied. *)
Definition scenario_env : Env :=
  visit (inr fix_10_20) (inl (DOMException "NotAllowedError")) true None.

(** The same visit with the store refusing the write. *)
Definition store_down_env : Env :=
  visit (inr fix_10_20) (inl (DOMException "NotAllowedError")) true
        (Some {| pe_isError := true; pe_name := Some "FirebaseError"; pe_code := None |}).

(** The visitor refuses the location prompt. *)
Definition location_denied_env : Env :=
  visit (inl (GeolocationPositionError 1)) (inl (DOMException "NotAllowedError")) true None.

(** Camera granted with one video track, but no drawing surface. *)
Definition no_surface_env : Env :=
  visit (inr fix_10_20) (inr {| getTracks := [0] |}) false None.

(** A browser where the device cannot be inspected. *)
Definition opaque_device_env : Env :=
  {| date_now := fun k => Z.of_nat k;
     userAgent := None;
     screen := None;
     getCurrentPosition := inl (GeolocationPositionError 2);
     fetch_reverse := inl TypeError;
     getUserMedia := inl (DOMException "NotFoundError");
     loadedmetadata := false;
     getContext2d := false;
     toDataURL := "";
     db_ref_error := fun _ => None;
     db_write := fun _ => None;
     db_subscribe := fun _ => None;
     uuidv4 := "";
     origin := "" |}.

Definition scenario_record : TrackingData :=
  {| timestamp := 1700000000000; ip := None;
     location := Some (coordinates_only fix_10_20);
     device := Some {| type := "Mobile"; os := "Linux"; browser := "Chrome";
                       screenResolution := "1080x1920" |};
     photo := None;
     errors := {| err_location := None;
                  err_photo := Some "Camera access denied by user";
                  err_save := None |} |}.

(** ** Vocabulary of the further statements *)

(** [tok] occurs in [s]. *)
Definition contains (tok s : string) : Prop :=
  exists pre post, s = (pre ++ tok ++ post)%string.

(** The token lists of the three patterns of [getDeviceInfo]. *)
Definition mobile_tokens : list string := ["Mobile"; "Tablet"; "iPad"; "iPhone"; "Android"].
Definition os_tokens : list string := ["Windows"; "Mac"; "Linux"; "Android"; "iOS"].
Definition browser_tokens : list string := ["Chrome"; "Firefox"; "Safari"; "Edge"].

(** What [getDeviceInfo] returns when both reads succeed. *)
Definition inspected_device (ua : string) (sw sh : N) : DeviceInfo :=
  {| type := if regex_test mobile_tokens ua then "Mobile" else "Desktop";
     os := default "Unknown" (js_or (regex_exec os_tokens ua) (Some "Unknown"));
     browser := default "Unknown" (js_or (regex_exec browser_tokens ua) (Some "Unknown"));
     screenResolution := dec_N sw ++ "x" ++ dec_N sh |}.

(** The photo step yields a photo: camera granted, metadata ready, and a
    drawing surface. *)
Definition photo_captured (env : Env) : bool :=
  match getUserMedia env with
  | inl _ => false
  | inr _ => loadedmetadata env && getContext2d env
  end.

(** The three states [handleTracking] can leave the page in once the
    service was called. *)
Definition page_after_success (p : Page) (td : TrackingData) : Page :=
  {| page_status := "Rastreamento concluído!"; page_error := page_error p;
     page_progress := 100; permissionWarnings := collect_warnings td;
     navigations := navigations p ++ ["/"] |}.

Definition page_after_failure (p : Page) : Page :=
  {| page_status := "Salvando informações...";
     page_error := "Ocorreu um erro durante o rastreamento";
     page_progress := 75; permissionWarnings := permissionWarnings p;
     navigations := navigations p |}.

Definition page_while_waiting (p : Page) : Page :=
  {| page_status := "Salvando informações..."; page_error := page_error p;
     page_progress := 75; permissionWarnings := permissionWarnings p;
     navigations := navigations p |}.

(** No later element of the list is strictly newer than an earlier one. *)
Definition newest_first {Payload : Type} (l : list (LinkAccess Payload)) : Prop :=
  StronglySorted (fun a b => newer b a = false) l.

(** The timestamp of the entry is a number, not NaN. *)
Definition numeric {Payload : Type} (e : LinkAccess Payload) : Prop :=
  is_Some (la_timestamp e).

(** What one accesses snapshot pushes for a link. *)
Definition new_entries {Payload : Type} (Number : string -> option Z) (linkId : string)
    (entries : list (string * StoredAccess Payload)) : list (LinkAccess Payload) :=
  map (fun kv => access_entry Number linkId (fst kv) (snd kv)) entries.

(** ** Further concrete visits *)

(** The geocoder knows the place: a town, no city, a lower-case code. *)
Definition geocoded_env : Env :=
  {| date_now := fun k => (1700000000000 + Z.of_nat k)%Z;
     userAgent := Some "Mozilla/5.0 (Windows NT 10.0; Win64; x64) Firefox/120.0";
     screen := Some (1920%N, 1080%N);
     getCurrentPosition := inr fix_10_20;
     fetch_reverse :=
       inr (inr (Some {| address :=
                           Some {| a_country := Some "Brasil";
                                   a_country_code := Some "br";
                                   a_city := None;
                                   a_town := Some "Paraty" |} |}));
     getUserMedia := inl (DOMException "NotFoundError");
     loadedmetadata := true;
     getContext2d := true;
     toDataURL := "";
     db_ref_error := fun _ => None;
     db_write := fun _ => None;
     db_subscribe := fun _ => None;
     uuidv4 := "1b9d6bcd-bbfd-4b2d-9b5d-ab8dfbbd4bed";
     origin := "https://example.org" |}.

Definition one_track : MediaStream := {| getTracks := [0] |}.

(** Camera granted and a frame encoded. *)
Definition camera_env : Env :=
  visit (inr fix_10_20) (inr one_track) true None.

(** Camera granted, but the metadata-ready notification never comes. *)
Definition no_metadata_env : Env :=
  {| date_now := fun k => (1700000000000 + Z.of_nat k)%Z;
     userAgent := Some "Mozilla/5.0 (Linux; Android 10) Chrome/99 Mobile Safari";
     screen := Some (1080%N, 1920%N);
     getCurrentPosition := inr fix_10_20;
     fetch_reverse := inl TypeError;
     getUserMedia := inr one_track;
     loadedmetadata := false;
     getContext2d := true;
     toDataURL := "";
     db_ref_error := fun _ => None;
     db_write := fun _ => None;
     db_subscribe := fun _ => None;
     uuidv4 := "1b9d6bcd-bbfd-4b2d-9b5d-ab8dfbbd4bed";
     origin := "https://example.org" |}.

(** Two visits within the same millisecond: the clock always reads the
    same value. *)
Definition same_instant_visit (camera : PlatformError + MediaStream) : Env :=
  {| date_now := fun _ => 1700000000000%Z;
     userAgent := Some "Mozilla/5.0 (Linux; Android 10) Chrome/99 Mobile Safari";
     screen := Some (1080%N, 1920%N);
     getCurrentPosition := inr fix_10_20;
     fetch_reverse := inl TypeError;
     getUserMedia := camera;
     loadedmetadata := true;
     getContext2d := true;
     toDataURL := "image/jpeg;base64,AAAA";
     db_ref_error := fun _ => None;
     db_write := fun _ => None;
     db_subscribe := fun _ => None;
     uuidv4 := "1b9d6bcd-bbfd-4b2d-9b5d-ab8dfbbd4bed";
     origin := "https://example.org" |}.

Definition first_visit_env : Env := same_instant_visit (inl (DOMException "NotAllowedError")).
Definition second_visit_env : Env := same_instant_visit (inr one_track).

(** A listing with one link, one listener and one access shown so far;
    keys are not numbers here, stored accesses carry their own timestamp. *)
Definition no_number : string -> option Z := fun _ => None.

Definition shown_access : LinkAccess unit :=
  {| la_linkId := "link1"; la_timestamp := Some 1700000000000%Z; la_payload := tt |}.

Definition example_listing : Listing unit :=
  {| links_listener := true; arrays := [[shown_access]];
     accesses_listeners := [("link1", 0)]; callback_calls := [] |}.

Definition example_snapshot : list (string * StoredAccess unit) :=
  [("1700000000005",
    {| own_linkId := None; own_timestamp := Some 1700000000004%Z; payload := tt |});
   ("1700000000009",
    {| own_linkId := None; own_timestamp := Some 1700000000008%Z; payload := tt |})].

Definition example_links : list (string * LinkData) :=
  [("link1", {| userId := "user1"; createdAt := 1; url := "https://example.org/track/link1" |});
   ("link2", {| userId := "user1"; createdAt := 2; url := "https://example.org/track/link2" |})].

(** The device of the scenario visit, the record of the visit whose write
    is refused, and the two visits of the same instant. *)
Definition scenario_device : DeviceInfo :=
  {| type := "Mobile"; os := "Linux"; browser := "Chrome";
     screenResolution := "1080x1920" |}.

Definition unsaved_record : TrackingData :=
  set_err_save (Some "Failed to save tracking data") scenario_record.

Definition first_visit_record : TrackingData :=
  {| timestamp := 1700000000000; ip := None;
     location := Some (coordinates_only fix_10_20);
     device := Some scenario_device;
     photo := None;
     errors := {| err_location := None;
                  err_photo := Some "Camera access denied by user";
                  err_save := None |} |}.

Definition second_visit_record : TrackingData :=
  {| timestamp := 1700000000000; ip := None;
     location := Some (coordinates_only fix_10_20);
     device := Some scenario_device;
     photo := Some "data:image/jpeg;base64,AAAA";
     errors := {| err_location := None; err_photo := None; err_save := None |} |}.

Definition after_first_visit : World :=
  snd (trackAccess first_visit_env "abc123_user1" blank_world).

Definition after_second_visit : World :=
  snd (trackAccess second_visit_env "abc123_user1" after_first_visit).

(** The parts of [trackAccess] on either side of the camera request: the
    record it starts from, the location step with its merge, what follows
    it inside the outer [try], and the outer [catch]. *)
Definition initial_record (now : Z) (dev : DeviceInfo) : TrackingData :=
  {| timestamp := now; ip := None; location := None; device := Some dev;
     photo := None;
     errors := {| err_location := None; err_photo := None; err_save := None |} |}.

Definition location_step (env : Env) : Eff (TrackingData * World) unit :=
  locationResult <- lift (getLocation env) ;;
  merge_location locationResult.

Definition photo_and_save (env : Env) (linkId : string)
  : Eff (TrackingData * World) TrackingData :=
  photoResult <- lift (capturePhoto env) ;;
  merge_photo photoResult ;;
  save_access env linkId ;;
  read_local.

Definition outer_catch (error : Thrown) : Eff (TrackingData * World) TrackingData :=
  lift (console_error "Error in trackAccess:") ;;
  trackingData <- read_local ;;
  ret (set_err_save (Some "Unexpected error during tracking") trackingData).

Definition finish {A : Type} (r : Outcome A * (TrackingData * World)) : Outcome A * World :=
  match r with
  | (o, s) => (o, snd s)
  end.

(** The scenario visit at the end of its location step. *)
Definition scenario_after_location : TrackingData * World :=
  snd (location_step scenario_env
         (initial_record 1700000000000 scenario_device,
          snd (getDeviceInfo scenario_env (snd (Date_now scenario_env blank_world))))).

(** Every character of the string is ASCII. *)
Definition ascii_only (s : string) : bool :=
  forallb (fun c => (nat_of_ascii c <? 128)%nat) (list_ascii_of_string s).

(** ** Symbolic execution *)

Ltac run_service :=
  unfold try_catch, bind, ret, throw, never, log, console_error, settle, emit;
  simpl.

Ltac case_if :=
  match goal with |- context [if ?b then _ else _] => destruct b end; simpl.

Ltac close_world :=
  repeat (unfold emits, emit; simpl); rewrite <- ?app_assoc; simpl; reflexivity.

Ltac flatten_trace :=
  simpl; repeat (rewrite <- app_assoc; simpl).

(** ** The three acquisition steps, run in any world

    Each step's result depends on the environment only, and all it does
    to the world is append events (and, for the camera, start and stop
    tracks). *)

Lemma truthy_str_is_Some o : truthy_str o = true -> is_Some o.
Proof. destruct o; [by eexists|done]. Qed.

Lemma getDeviceInfo_run env :
  exists dev evs,
    (forall w, getDeviceInfo env w = (Returned dev, emits evs w)) /\
    forallb (fun e => negb (is_photo_event e)) evs = true /\
    (userAgent env = None \/ screen env = None -> dev = unknown_device).
Proof.
  unfold getDeviceInfo, read_userAgent, read_screen. run_service.
  destruct (userAgent env) as [ua|] eqn:Hua; simpl;
    [destruct (screen env) as [[sw sh]|] eqn:Hscr; simpl|].
  - eexists _, _. split; [intros w; close_world|]. split; [reflexivity|].
    intros [?|?]; discriminate.
  - eexists _, _. split; [intros w; close_world|]. split; [reflexivity|]. done.
  - eexists _, _. split; [intros w; close_world|]. split; [reflexivity|]. done.
Qed.

Lemma getLocation_rejected env e :
  getCurrentPosition env = inl e ->
  forall w,
    getLocation env w =
    (Returned {| lr_location := None; lr_error := Some (location_message e) |},
     emits [CallGetCurrentPosition; ConsoleError "Error getting location:"] w).
Proof.
  intros He w. unfold getLocation, await_getCurrentPosition, location_message.
  rewrite He. run_service. close_world.
Qed.

Lemma getLocation_run env :
  exists r evs,
    (forall w, getLocation env w =
               (Returned r, emits (CallGetCurrentPosition :: evs) w)) /\
    forallb (fun e => negb (is_photo_event e)) evs = true /\
    one_sided (lr_location r) (lr_error r).
Proof.
  destruct (getCurrentPosition env) as [e|pos] eqn:Hpos.
  - eexists _, _. split; [apply (getLocation_rejected env e Hpos)|].
    split; [reflexivity|]. right. split; [done|].
    unfold location_message. simpl. by case_if.
  - unfold getLocation, await_getCurrentPosition, await_fetch, await_json, data_address.
    rewrite Hpos. run_service.
    destruct (fetch_reverse env) as [e|[e|[d|]]]; simpl;
      (eexists _, _; split; [intros w; close_world|]; split; [reflexivity|];
       left; split; [by eexists|done]).
Qed.

Lemma forEach_stop_run ts :
  forall w,
    forEach_stop ts w =
    (Returned tt, set_live_tracks (stop_all ts) (emits (map TrackStop ts) w)).
Proof.
  induction ts as [|t ts IH]; intros w.
  - destruct w. unfold set_live_tracks, emits. simpl. by rewrite app_nil_r.
  - simpl. unfold bind, track_stop. rewrite IH.
    unfold set_live_tracks, emits, emit, stop_all. simpl.
    by rewrite <- app_assoc.
Qed.

Lemma stop_all_sound ts :
  forall l u, In u (stop_all ts l) -> In u l /\ ~ In u ts.
Proof.
  induction ts as [|t ts IH]; intros l u Hu; [by split; [|intros []]|].
  apply IH in Hu as [Hu Hts]. apply filter_In in Hu as [Hl Hne].
  split; [done|]. intros [->|?]; [|done].
  by rewrite Nat.eqb_refl in Hne.
Qed.

Lemma capturePhoto_rejected env e :
  getUserMedia env = inl e ->
  forall w,
    capturePhoto env w =
    (Returned {| pr_photo := None; pr_error := Some (camera_message e) |},
     emits [CallGetUserMedia; ConsoleError "Error capturing photo:"] w).
Proof.
  intros He w. unfold capturePhoto, await_getUserMedia, camera_message. rewrite He.
  run_service. close_world.
Qed.

(** The path that encodes a frame: every track of the stream is stopped,
    and the stops come before the promise is resolved. *)
Lemma capturePhoto_encoded_releases_camera env stream w :
  getUserMedia env = inr stream ->
  loadedmetadata env = true ->
  getContext2d env = true ->
  exists w',
    capturePhoto env w =
      (Returned {| pr_photo := Some ("data:" ++ toDataURL env)%string;
                   pr_error := None |}, w') /\
    trace w' =
      trace w ++ [CallGetUserMedia; VideoPlay; CanvasGetContext; CanvasDrawImage;
                  CanvasToDataURL] ++ map TrackStop (getTracks stream) ++
      [PromiseResolve] /\
    (forall t, In t (getTracks stream) -> ~ In t (live_tracks w')).
Proof.
  intros Hcam Hmeta Hctx.
  unfold capturePhoto, await_getUserMedia, canvas_getContext, canvas_toDataURL, resolve.
  rewrite Hcam, Hmeta, Hctx. run_service. rewrite forEach_stop_run.
  eexists. split; [reflexivity|]. split; [by flatten_trace|].
  simpl. intros t Ht Hlive. by apply stop_all_sound in Hlive as [_ ?].
Qed.

Lemma track_stops_are_photo_events ts :
  forallb is_photo_event (map TrackStop ts) = true /\
  forallb (fun e => negb (is_location_event e)) (map TrackStop ts) = true.
Proof. induction ts as [|t ts [IH1 IH2]]; simpl; auto. Qed.

Lemma capturePhoto_run env :
  exists o evs f,
    (forall w, capturePhoto env w =
               (o, set_live_tracks f (emits (CallGetUserMedia :: evs) w))) /\
    forallb (fun e => negb (is_location_event e)) evs = true /\
    photo_shape env o.
Proof.
  destruct (getUserMedia env) as [e|stream] eqn:Hcam.
  - eexists _, _, (fun l => l). split.
    + intros w. rewrite (capturePhoto_rejected env e Hcam). close_world.
    + unfold photo_shape, photo_settles. rewrite Hcam. simpl. repeat split.
      right. split; [done|]. unfold camera_message. by case_if.
  - unfold capturePhoto, await_getUserMedia, canvas_getContext, canvas_toDataURL,
      resolve, photo_shape, photo_settles.
    rewrite Hcam.
    destruct (loadedmetadata env); [destruct (getContext2d env)|].
    + eexists _, _, (fun l => stop_all (getTracks stream) (l ++ getTracks stream)). split.
      * intros w. run_service. rewrite forEach_stop_run. close_world.
      * simpl. rewrite forallb_app.
        rewrite (proj2 (track_stops_are_photo_events (getTracks stream))).
        repeat split. by left.
    + eexists _, _, (fun l => l ++ getTracks stream). split.
      * intros w. run_service. close_world.
      * simpl. repeat split. by right.
    + eexists _, _, (fun l => l ++ getTracks stream). split.
      * intros w. run_service. close_world.
      * done.
Qed.

Lemma save_event_not_location e :
  is_save_event e = true -> is_location_event e = false.
Proof.
  destruct e as [| | | | | | | | | | | | |[]| | | |l]; simpl; try done.
  intros H. apply String.eqb_eq in H. by subst.
Qed.

(** ** The orchestration, run in any world *)

Lemma trackAccess_run env linkId w :
  exists dev loc o evd evl evp f,
    (forall v, getDeviceInfo env v = (Returned dev, emits evd v)) /\
    (forall v, getLocation env v =
               (Returned loc, emits (CallGetCurrentPosition :: evl) v)) /\
    (forall v, capturePhoto env v =
               (o, set_live_tracks f (emits (CallGetUserMedia :: evp) v))) /\
    forallb (fun e => negb (is_photo_event e)) evd = true /\
    forallb (fun e => negb (is_photo_event e)) evl = true /\
    forallb (fun e => negb (is_location_event e)) evp = true /\
    one_sided (lr_location loc) (lr_error loc) /\
    photo_shape env o /\
    let before :=
      CallDateNow :: evd ++ CallGetCurrentPosition :: evl ++
      [RecordWrite (location_field loc)] in
    match o with
    | Returned pho =>
        let td := collected (date_now env (clock w)) dev loc pho in
        let path := access_path env linkId w in
        exists evs W,
          trackAccess env linkId w =
          (Returned (if save_rejected env path
                     then set_err_save (Some "Failed to save tracking data") td
                     else td), W) /\
          trace W = trace w ++ before ++ CallGetUserMedia :: evp ++
                    RecordWrite (photo_field pho) :: CallDateNow :: evs /\
          forallb is_save_event evs = true /\
          store W = (if save_rejected env path then store w
                     else <[path := DbAccess td]> (store w)) /\
          live_tracks W = f (live_tracks w)
    | Pending =>
        exists W,
          trackAccess env linkId w = (Pending, W) /\
          trace W = trace w ++ before ++ CallGetUserMedia :: evp
    | Raised _ => False
    end.
Proof.
  destruct (getDeviceInfo_run env) as (dev & evd & Hdev & Hevd & _).
  destruct (getLocation_run env) as (loc & evl & Hloc & Hevl & Hlshape).
  destruct (capturePhoto_run env) as (o & evp & f & Hpho & Hevp & Hpshape).
  exists dev, loc, o, evd, evl, evp, f.
  repeat (split; [assumption|]).
  unfold trackAccess, Date_now, with_local, save_access, merge_location, merge_photo,
    assign, lift, read_local, update_local, db_ref, db_set, access_path, save_rejected,
    location_field, photo_field, collected.
  run_service. rewrite Hdev. simpl. rewrite Hloc. simpl.
  destruct loc as [l le]. simpl in *.
  destruct Hlshape as [[[l' ->] ->]|[-> Hle]]; simpl; rewrite ?Hle; simpl;
    rewrite Hpho; simpl.
  all: destruct o as [[p pe]| |]; simpl in *;
    [|done|eexists; split; [reflexivity|by flatten_trace]].
  all: destruct Hpshape as [_ [[Hp ->]|[-> Hpe]]]; simpl; rewrite ?Hp, ?Hpe; simpl.
  all: destruct (db_ref_error env _); simpl; [|destruct (db_write env _); simpl].
  all: eexists _, _; split; [reflexivity|]; split; [by flatten_trace|]; done.
Qed.

(** ** Properties of the tracking service *)

(** The visit of [scenario_env] to the link abc123_user1: the record with
    the raw coordinates and the camera denial is returned, and it is what
    the store holds under the access path. *)
Lemma scenario_persisted_and_returned :
  fst (trackAccess scenario_env "abc123_user1" blank_world) = Returned scenario_record /\
  store (snd (trackAccess scenario_env "abc123_user1" blank_world))
    !! "accesses/abc123_user1/1700000000001" = Some (DbAccess scenario_record).
Proof. vm_compute. split; reflexivity. Qed.

(** C1.  In the record returned by a completed run of [trackAccess],
    exactly one of [location] and [errors.location] is present, and
    exactly one of [photo] and [errors.photo]: never both, never
    neither. *)
Theorem trackAccess_exactly_one env linkId w td w' :
  trackAccess env linkId w = (Returned td, w') ->
  exactly_one (location td) (err_location (errors td)) /\
  exactly_one (photo td) (err_photo (errors td)).
Proof.
  intros Hrun.
  destruct (trackAccess_run env linkId w)
    as (dev & loc & o & evd & evl & evp & f & _ & _ & _ & _ & _ & _ & Hl & Hp & Ho).
  destruct o as [pho| |]; [|done|destruct Ho as (W & HW & _); congruence].
  destruct Ho as (evs & W & HW & _). rewrite HW in Hrun.
  injection Hrun as <- _.
  assert (exactly_one (lr_location loc) (lr_error loc)) as Hl'.
  { destruct Hl as [[? ?]|[? ?]]; [by left|right; eauto using truthy_str_is_Some]. }
  assert (exactly_one (pr_photo pho) (pr_error pho)) as Hp'.
  { destruct Hp as [_ [[? ?]|[? ?]]];
      [left|right]; eauto using truthy_str_is_Some. }
  by destruct (save_rejected env _).
Qed.

Lemma trackAccess_exactly_one_witness :
  exactly_one (location scenario_record) (err_location (errors scenario_record)) /\
  exactly_one (photo scenario_record) (err_photo (errors scenario_record)).
Proof.
  apply (trackAccess_exactly_one scenario_env "abc123_user1" blank_world scenario_record
           (snd (trackAccess scenario_env "abc123_user1" blank_world))).
  vm_compute. reflexivity.
Defined.




(** C3.  When the location request yields a fix and the reverse geocoding
    fails or errors, [getLocation] succeeds: [location] is set with the
    raw latitude and longitude, [country], [countryCode] and [city] are
    absent, and no error is reported. *)
Theorem getLocation_geocoding_fallback env w pos :
  getCurrentPosition env = inr pos ->
  geocoding_fails env = true ->
  fst (getLocation env w) =
  Returned {| lr_location := Some (coordinates_only pos); lr_error := None |}.
Proof.
  unfold geocoding_fails, getLocation, await_getCurrentPosition, await_fetch,
    await_json, data_address.
  intros -> Hfail. run_service.
  by destruct (fetch_reverse env) as [e|[e|[d|]]].
Qed.

Lemma getLocation_geocoding_fallback_witness :
  fst (getLocation scenario_env blank_world) =
  Returned {| lr_location := Some (coordinates_only fix_10_20); lr_error := None |}.
Proof.
  apply (getLocation_geocoding_fallback scenario_env blank_world fix_10_20);
    reflexivity.
Defined.

(** C4, at the input where it fails.  The camera is granted with one
    track, the metadata-ready handler runs, and no drawing surface is
    available: the promise is resolved with the canvas error, no track
    was stopped before that, and the track is still capturing after. *)
Theorem capturePhoto_no_surface_keeps_camera :
  fst (capturePhoto no_surface_env blank_world) =
    Returned {| pr_photo := None; pr_error := Some "Could not get canvas context" |} /\
  trace (snd (capturePhoto no_surface_env blank_world)) =
    [CallGetUserMedia; VideoPlay; CanvasGetContext; PromiseResolve] /\
  live_tracks (snd (capturePhoto no_surface_env blank_world)) = [0].
Proof. vm_compute. repeat split. Qed.

(** C5, at the input where it fails.  The visitor refuses the location
    prompt, so the platform rejects with a [GeolocationPositionError]
    whose code is 1; that object is not an [instanceof Error], and
    [getLocation] answers with the message meant for the other
    failures. *)
Theorem getLocation_denial_reported_as_unavailable :
  getCurrentPosition location_denied_env = inl (GeolocationPositionError 1) /\
  fst (getLocation location_denied_env blank_world) =
    Returned {| lr_location := None;
                lr_error := Some "Location not available or access denied" |}.
Proof. vm_compute. split; reflexivity. Qed.

(** C6.  When the camera request fails with [e], [capturePhoto] reports
    "Camera access denied by user" if [e] is the platform's explicit
    denial (a [DOMException] named NotAllowedError) and "Camera not
    available or access denied" for every other failure; either way the
    record that [trackAccess] returns has no [photo] and carries that
    message in [errors.photo]. *)
Theorem capturePhoto_classifies_denial env linkId w e :
  getUserMedia env = inl e ->
  (pe_isError e = true /\ pe_name e = Some "NotAllowedError" ->
   camera_message e = "Camera access denied by user") /\
  (pe_isError e = false \/ pe_name e <> Some "NotAllowedError" ->
   camera_message e = "Camera not available or access denied") /\
  fst (capturePhoto env w) =
    Returned {| pr_photo := None; pr_error := Some (camera_message e) |} /\
  exists td w',
    trackAccess env linkId w = (Returned td, w') /\
    photo td = None /\
    err_photo (errors td) = Some (camera_message e).
Proof.
  intros He. split.
  { unfold camera_message, name_is. simpl. by intros [-> ->]. }
  split.
  { unfold camera_message, name_is. simpl. intros [->|Hn]; [done|].
    destruct (pe_name e) as [n|]; [|by rewrite andb_false_r].
    destruct (String.eqb_spec n "NotAllowedError") as [->|_];
      [done|by rewrite andb_false_r]. }
  split; [by rewrite (capturePhoto_rejected env e He)|].
  destruct (trackAccess_run env linkId w)
    as (dev & loc & o & evd & evl & evp & f & _ & _ & Hpho & _ & _ & _ & _ & _ & Ho).
  specialize (Hpho w). rewrite (capturePhoto_rejected env e He) in Hpho.
  injection Hpho as <- _.
  destruct Ho as (evs & W & HW & _). rewrite HW.
  eexists _, _. split; [reflexivity|]. by destruct (save_rejected env _).
Qed.

Lemma capturePhoto_classifies_denial_witness :
  exists td w',
    trackAccess scenario_env "abc123_user1" blank_world = (Returned td, w') /\
    photo td = None /\
    err_photo (errors td) = Some "Camera access denied by user".
Proof.
  destruct (capturePhoto_classifies_denial scenario_env "abc123_user1" blank_world
              (DOMException "NotAllowedError") eq_refl)
    as (Hmsg & _ & _ & td & w' & Hrun & Hphoto & Herr).
  exists td, w'. rewrite <- (Hmsg (conj eq_refl eq_refl)). auto.
Defined.

(** C7.  [getDeviceInfo] is total: in every environment it returns a
    device record; and when the environment cannot be inspected, all four
    fields of that record are "Unknown". *)
Theorem getDeviceInfo_total env w :
  exists dev w',
    getDeviceInfo env w = (Returned dev, w') /\
    (userAgent env = None \/ screen env = None ->
     type dev = "Unknown" /\ os dev = "Unknown" /\ browser dev = "Unknown" /\
     screenResolution dev = "Unknown").
Proof.
  destruct (getDeviceInfo_run env) as (dev & evs & Hrun & _ & Hfail).
  exists dev, (emits evs w). split; [apply Hrun|].
  intros H. by rewrite (Hfail H).
Qed.

Lemma getDeviceInfo_total_witness :
  exists dev w',
    getDeviceInfo opaque_device_env blank_world = (Returned dev, w') /\
    type dev = "Unknown" /\ os dev = "Unknown" /\ browser dev = "Unknown" /\
    screenResolution dev = "Unknown".
Proof.
  destruct (getDeviceInfo_total opaque_device_env blank_world)
    as (dev & w' & Hrun & Hunknown).
  exists dev, w'. split; [exact Hrun|]. apply Hunknown. left. reflexivity.
Defined.

(** C8.  In every run of [trackAccess], once the clock and the device
    are read and the location step is over, the record under construction
    holds what [getLocation] produced (exactly one of [location] and
    [errors.location], nothing of the photo yet), and no photo event has
    happened; what remains of the run is the photo step and the save,
    started from that record, and it begins with the camera request,
    after which no location event happens. *)
Theorem trackAccess_location_before_photo env linkId w now w1 dev w2 td w3 :
  Date_now env w = (Returned now, w1) ->
  getDeviceInfo env w1 = (Returned dev, w2) ->
  location_step env (initial_record now dev, w2) = (Returned tt, (td, w3)) ->
  (exists loc,
     fst (getLocation env w2) = Returned loc /\
     location td = lr_location loc /\
     err_location (errors td) = lr_error loc) /\
  exactly_one (location td) (err_location (errors td)) /\
  photo td = None /\ err_photo (errors td) = None /\
  trackAccess env linkId w =
    finish (try_catch (photo_and_save env linkId) outer_catch (td, w3)) /\
  exists before after,
    trace w3 = trace w ++ before /\
    In CallGetCurrentPosition before /\
    (In (RecordWrite FLocation) before \/ In (RecordWrite FErrLocation) before) /\
    forallb (fun e => negb (is_photo_event e)) before = true /\
    trace (snd (trackAccess env linkId w)) = trace w3 ++ CallGetUserMedia :: after /\
    forallb (fun e => negb (is_location_event e)) after = true.
Proof.
  intros Hnow Hdevice Hstep.
  destruct (trackAccess_run env linkId w)
    as (dev' & loc & o & evd & evl & evp & f & Hdev & Hloc & Hpho & Hevd & Hevl & Hevp
        & Hlshape & Hpshape & Ho).
  unfold Date_now in Hnow. injection Hnow as <- <-.
  rewrite Hdev in Hdevice. injection Hdevice as <- <-.
  assert (td = collected (date_now env (clock w)) dev' loc
                 {| pr_photo := None; pr_error := None |} /\
          w3 = tick (emits (CallDateNow :: evd ++ CallGetCurrentPosition :: evl ++
                            [RecordWrite (location_field loc)]) w)) as [-> ->].
  { revert Hstep. unfold location_step, merge_location, assign, lift, update_local,
      location_field, collected, initial_record.
    run_service. rewrite Hloc. simpl. destruct loc as [l le]. simpl in *.
    destruct Hlshape as [[[l' ->] ->]|[-> Hle]]; simpl; rewrite ?Hle; simpl;
      intros [= <- <-]; (split; [reflexivity|unfold tick; close_world]). }
  split; [exists loc; by rewrite Hloc|].
  split.
  { simpl. destruct Hlshape as [[? ?]|[? ?]]; [by left|right; eauto using truthy_str_is_Some]. }
  split; [done|]. split; [done|].
  assert (trackAccess env linkId w =
          finish (try_catch (photo_and_save env linkId) outer_catch
                    (collected (date_now env (clock w)) dev' loc
                       {| pr_photo := None; pr_error := None |},
                     tick (emits (CallDateNow :: evd ++ CallGetCurrentPosition :: evl ++
                                  [RecordWrite (location_field loc)]) w)))) as Hrest.
  { unfold trackAccess, Date_now, with_local, photo_and_save, outer_catch, finish,
      merge_location, assign, lift, update_local, read_local, location_field, collected.
    run_service. rewrite Hdev. simpl. rewrite Hloc. simpl.
    destruct loc as [l le]. simpl in *.
    destruct Hlshape as [[[l' ->] ->]|[-> Hle]]; simpl; rewrite ?Hle; simpl.
    all: unfold tick, emits; simpl; rewrite <- ?app_assoc; simpl.
    all: reflexivity. }
  split; [exact Hrest|].
  exists (CallDateNow :: evd ++ CallGetCurrentPosition :: evl ++
          [RecordWrite (location_field loc)]).
  assert (In CallGetCurrentPosition
            (CallDateNow :: evd ++ CallGetCurrentPosition :: evl ++
             [RecordWrite (location_field loc)])) as Hin1.
  { right. apply in_or_app. right. by left. }
  assert (In (RecordWrite FLocation)
            (CallDateNow :: evd ++ CallGetCurrentPosition :: evl ++
             [RecordWrite (location_field loc)]) \/
          In (RecordWrite FErrLocation)
            (CallDateNow :: evd ++ CallGetCurrentPosition :: evl ++
             [RecordWrite (location_field loc)])) as Hin2.
  { unfold location_field.
    destruct (truthy_obj (lr_location loc)); [left|right];
      right; apply in_or_app; right; right; apply in_or_app; right; by left. }
  assert (forallb (fun e => negb (is_photo_event e))
            (CallDateNow :: evd ++ CallGetCurrentPosition :: evl ++
             [RecordWrite (location_field loc)]) = true) as Hbefore.
  { simpl. rewrite forallb_app. simpl. rewrite forallb_app. simpl.
    rewrite Hevd, Hevl. unfold location_field.
    by destruct (truthy_obj (lr_location loc)). }
  cbv zeta in Ho.
  destruct o as [pho| |]; [|done|].
  - destruct Ho as (evs & W & -> & HW & Hevs & _).
    exists (evp ++ RecordWrite (photo_field pho) :: CallDateNow :: evs).
    split; [done|]. repeat (split; [assumption|]).
    split; [simpl; rewrite HW; by rewrite <- app_assoc|].
    rewrite forallb_app, Hevp.
    change (negb (is_location_event (RecordWrite (photo_field pho))) &&
            forallb (fun e => negb (is_location_event e)) evs = true).
    replace (is_location_event (RecordWrite (photo_field pho))) with false
      by (unfold photo_field; by destruct (truthy_str (pr_photo pho))).
    simpl. clear -Hevs. induction evs as [|e evs IH]; [done|]. simpl in *.
    apply andb_prop in Hevs as [He Hevs].
    by rewrite (save_event_not_location e He), IH.
  - destruct Ho as (W & -> & HW). exists evp.
    split; [done|]. repeat (split; [assumption|]).
    split; [simpl; rewrite HW; by rewrite <- app_assoc|done].
Qed.

Lemma trackAccess_location_before_photo_witness :
  location (fst scenario_after_location) = Some (coordinates_only fix_10_20) /\
  err_location (errors (fst scenario_after_location)) = None /\
  trackAccess scenario_env "abc123_user1" blank_world =
    finish (try_catch (photo_and_save scenario_env "abc123_user1") outer_catch
              scenario_after_location) /\
  exists after,
    trace (snd (trackAccess scenario_env "abc123_user1" blank_world)) =
      trace (snd scenario_after_location) ++ CallGetUserMedia :: after.
Proof.
  destruct (trackAccess_location_before_photo scenario_env "abc123_user1" blank_world
              1700000000000%Z (snd (Date_now scenario_env blank_world))
              scenario_device
              (snd (getDeviceInfo scenario_env (snd (Date_now scenario_env blank_world))))
              (fst scenario_after_location) (snd scenario_after_location))
    as ((loc & Hloc & Hl & He) & _ & _ & _ & Hrest & before & after & _ & _ & _ & _ & Htrace & _);
    [vm_compute; reflexivity..|].
  vm_compute in Hloc. injection Hloc as <-.
  split; [exact Hl|]. split; [exact He|]. split; [exact Hrest|].
  exists after. exact Htrace.
Defined.

(** ** The older tracking service on the same visits *)

(** There a failed write makes [trackAccess] throw the store's error. *)
Lemma legacy_trackAccess_rethrows :
  fst (Legacy.trackAccess store_down_env "abc123_user1" blank_world) =
  Raised (Foreign {| pe_isError := true; pe_name := Some "FirebaseError";
                     pe_code := None |}).
Proof. vm_compute. reflexivity. Qed.

(** There a geocoding failure discards the coordinates. *)
Lemma legacy_getLocation_geocoding_failure :
  fst (Legacy.getLocation scenario_env blank_world) =
  Returned {| lr_location := None; lr_error := Some "Location access denied" |}.
Proof. vm_compute. reflexivity. Qed.

(** There every camera failure has one message. *)
Lemma legacy_capturePhoto_denied env e w :
  getUserMedia env = inl e ->
  fst (Legacy.capturePhoto env w) =
  Returned {| pr_photo := None; pr_error := Some "Camera access denied" |}.
Proof.
  intros He. unfold Legacy.capturePhoto, await_getUserMedia. rewrite He.
  by run_service.
Qed.

(** ** Properties of the link service *)

(** The listener that [validateLink] registers does see whether the link
    exists; only its answer goes nowhere. *)
Lemma validateLink_listener_sees_link env linkId w :
  store_read_throws env (link_path linkId) = false ->
  trace (snd (validateLink env linkId w)) =
  trace w ++ [DbOnValue (link_path linkId);
              SnapshotExists (link_path linkId)
                (truthy_obj (store w !! link_path linkId))].
Proof.
  unfold validateLink, onValue, db_ref, store_read_throws, link_path. run_service.
  destruct (db_ref_error env _); simpl; [done|].
  destruct (db_subscribe env _); simpl; [done|].
  intros _. by flatten_trace.
Qed.

(** C9.  What [validateLink] resolves to does not depend on whether the
    link is in the store: with the link present and with it absent the
    result is the same.  The result is the subscription handle, not a
    boolean, unless the store read throws; and it is [false] exactly when
    the store read throws. *)
Theorem validateLink_ignores_store env linkId w :
  (forall st link,
     fst (validateLink env linkId
            (set_store (fun _ => <[link_path linkId := DbLink link]> st) w)) =
     fst (validateLink env linkId
            (set_store (fun _ => delete (link_path linkId) st) w))) /\
  fst (validateLink env linkId w) =
    (if store_read_throws env (link_path linkId)
     then Returned (JsBool false)
     else Returned (Unsubscribe (listeners w))) /\
  (fst (validateLink env linkId w) = Returned (JsBool false)
   <-> store_read_throws env (link_path linkId) = true).
Proof.
  unfold validateLink, onValue, db_ref, store_read_throws, link_path. run_service.
  destruct (db_ref_error env _); simpl; [done|].
  destruct (db_subscribe env _); simpl; [done|].
  split; [done|]. split; [done|]. split; congruence.
Qed.

(** C10.  [generateLink] throws its authentication error exactly when
    [userId] is empty, and then leaves the world untouched (no store
    write); for a non-empty [userId] whose link is persisted, it returns
    [<origin>/track/<uuid>_<userId>] and the store holds the new link. *)
Theorem generateLink_guard env userId w :
  ((exists w', generateLink env userId w = (Raised (NewError auth_message), w'))
   <-> userId = "") /\
  (userId = "" -> snd (generateLink env userId w) = w) /\
  (userId <> "" ->
   let linkRef := ("links/" ++ uuidv4 env ++ "_" ++ userId)%string in
   db_ref_error env linkRef = None ->
   db_write env linkRef = None ->
   exists w',
     generateLink env userId w =
       (Returned (origin env ++ "/track/" ++ uuidv4 env ++ "_" ++ userId)%string, w') /\
     store w' = <[linkRef := DbLink (new_link env userId w)]> (store w)).
Proof.
  unfold generateLink, db_ref, db_set, Date_now, new_link.
  destruct userId as [|c u]; simpl.
  - split; [split; [done|intros _; by eexists]|]. split; [done|]. done.
  - split.
    { split; [|done]. intros [w' H]. revert H. run_service.
      destruct (db_ref_error env _); simpl; [congruence|].
      destruct (db_write env _); simpl; congruence. }
    split; [done|]. intros _ Href Hwrite. run_service.
    rewrite Href. simpl. rewrite Hwrite. simpl. by eexists.
Qed.

Lemma generateLink_guard_witness :
  (exists w',
     generateLink scenario_env "user1" blank_world =
     (Returned
        "https://example.org/track/1b9d6bcd-bbfd-4b2d-9b5d-ab8dfbbd4bed_user1",
      w')) /\
  snd (generateLink scenario_env "" blank_world) = blank_world.
Proof.
  destruct (generateLink_guard scenario_env "user1" blank_world) as (_ & _ & Hok).
  destruct (generateLink_guard scenario_env "" blank_world) as (_ & Hempty & _).
  split.
  - destruct (Hok ltac:(discriminate) eq_refl eq_refl) as (w' & Hrun & _).
    exists w'. exact Hrun.
  - exact (Hempty eq_refl).
Defined.

(** * Further properties

    What the rest of the code shows, function by function. *)

(** ** getDeviceInfo *)

Lemma prefix_spec a s : String.prefix a s = true <-> exists post, s = (a ++ post)%string.
Proof.
  revert s. induction a as [|c a IH]; intros s.
  - destruct s; split; simpl; eauto.
  - destruct s as [|d s]; [split; [done|intros [? ?]; done]|].
    change (String.prefix (String c a) (String d s))
      with (if ascii_dec c d then String.prefix a s else false).
    destruct (ascii_dec c d) as [->|Hne].
    + split.
      * intros H. apply IH in H as [post ->]. by exists post.
      * intros [post H]. injection H as ->. apply IH. by exists post.
    + split; [done|]. intros [post H]. injection H as -> _. done.
Qed.

Lemma first_prefix_Some alts s a :
  first_prefix alts s = Some a -> In a alts /\ String.prefix a s = true.
Proof.
  induction alts as [|b alts IH]; simpl; [done|].
  destruct (String.prefix b s) eqn:Hb.
  - intros [= <-]. auto.
  - intros H. apply IH in H as [? ?]. auto.
Qed.

Lemma first_prefix_None alts s :
  first_prefix alts s = None <-> forall a, In a alts -> String.prefix a s = false.
Proof.
  induction alts as [|b alts IH]; simpl; [split; [intros _ ? []|done]|].
  destruct (String.prefix b s) eqn:Hb.
  - split; [done|]. intros H. specialize (H b (or_introl eq_refl)). congruence.
  - rewrite IH. split; [intros H a [<-|?]; auto|auto].
Qed.

Lemma regex_exec_Some alts s a :
  regex_exec alts s = Some a -> In a alts /\ contains a s.
Proof.
  induction s as [|c s IH]; simpl.
  - destruct (first_prefix alts "") eqn:Hp; [|done].
    intros [= <-]. apply first_prefix_Some in Hp as [Hin Hpre].
    split; [done|]. apply prefix_spec in Hpre as [post ->]. by exists "", post.
  - destruct (first_prefix alts (String c s)) eqn:Hp.
    + intros [= <-]. apply first_prefix_Some in Hp as [Hin Hpre].
      split; [done|]. apply prefix_spec in Hpre as [post ->]. by exists "", post.
    + intros H. apply IH in H as [Hin (pre & post & ->)].
      split; [done|]. by exists (String c pre), post.
Qed.

Lemma regex_exec_None alts s :
  regex_exec alts s = None <-> forall a, In a alts -> ~ contains a s.
Proof.
  induction s as [|c s IH]; simpl.
  - destruct (first_prefix alts "") eqn:Hp.
    + split; [done|]. intros H. apply first_prefix_Some in Hp as [Hin Hpre].
      apply prefix_spec in Hpre as [post Hpost]. exfalso. apply (H _ Hin).
      by exists "", post.
    + split; [|done]. intros _ a Hin (pre & post & Hs).
      rewrite first_prefix_None in Hp. specialize (Hp a Hin).
      destruct pre; [|done]. simpl in Hs.
      assert (String.prefix a "" = true) by (apply prefix_spec; eauto). congruence.
  - destruct (first_prefix alts (String c s)) eqn:Hp.
    + split; [done|]. intros H. apply first_prefix_Some in Hp as [Hin Hpre].
      apply prefix_spec in Hpre as [post Hpost]. exfalso. apply (H _ Hin).
      by exists "", post.
    + rewrite IH. rewrite first_prefix_None in Hp. split.
      * intros H a Hin (pre & post & Hs). destruct pre as [|d pre]; simpl in Hs.
        -- assert (String.prefix a (String c s) = true) by (apply prefix_spec; eauto).
           rewrite Hp in *; done.
        -- injection Hs as -> ->. apply (H a Hin). by exists pre, post.
      * intros H a Hin (pre & post & ->). apply (H a Hin). by exists (String c pre), post.
Qed.

Lemma token_or_unknown alts ua :
  Forall (fun a => a <> "") alts ->
  (regex_exec alts ua = None /\
   default "Unknown" (js_or (regex_exec alts ua) (Some "Unknown")) = "Unknown") \/
  (exists a, regex_exec alts ua = Some a /\ In a alts /\
   default "Unknown" (js_or (regex_exec alts ua) (Some "Unknown")) = a).
Proof.
  intros Hne. destruct (regex_exec alts ua) as [a|] eqn:Hex; [right|by left].
  exists a. split; [done|]. apply regex_exec_Some in Hex as [Hin _].
  split; [done|]. pose proof (proj1 (List.Forall_forall _ _) Hne a Hin) as Ha.
  unfold js_or. simpl. by destruct (String.eqb_spec a "").
Qed.

Lemma os_tokens_nonempty : Forall (fun a => a <> "") os_tokens.
Proof. repeat constructor; done. Qed.

Lemma browser_tokens_nonempty : Forall (fun a => a <> "") browser_tokens.
Proof. repeat constructor; done. Qed.

Lemma getDeviceInfo_inspected env ua sw sh :
  userAgent env = Some ua ->
  screen env = Some (sw, sh) ->
  forall w,
    getDeviceInfo env w =
    (Returned (inspected_device ua sw sh), emits [ReadUserAgent; ReadScreen] w).
Proof.
  intros Hua Hscr w. unfold getDeviceInfo, read_userAgent, read_screen.
  rewrite Hua, Hscr. unfold try_catch, bind, ret, log. cbn [fst snd].
  unfold inspected_device, mobile_tokens, os_tokens, browser_tokens.
  f_equal. close_world.
Qed.

Lemma getDeviceInfo_opaque env :
  userAgent env = None \/ screen env = None ->
  forall w, fst (getDeviceInfo env w) = Returned unknown_device.
Proof.
  intros H w. destruct (getDeviceInfo_run env) as (dev & evs & Hrun & _ & Hfail).
  by rewrite Hrun, (Hfail H).
Qed.

(** X1.  Whatever the browser, the record [getDeviceInfo] returns has a
    [type] among Mobile, Desktop and Unknown, an [os] that is one of the
    five tokens of the pattern or Unknown, and a [browser] that is one of
    the four tokens or Unknown. *)
Theorem getDeviceInfo_field_ranges env w dev w' :
  getDeviceInfo env w = (Returned dev, w') ->
  In (type dev) ["Mobile"; "Desktop"; "Unknown"] /\
  In (os dev) (os_tokens ++ ["Unknown"]) /\
  In (browser dev) (browser_tokens ++ ["Unknown"]).
Proof.
  destruct (userAgent env) as [ua|] eqn:Hua;
    [destruct (screen env) as [[sw sh]|] eqn:Hscr|].
  - rewrite (getDeviceInfo_inspected env ua sw sh Hua Hscr). intros [= <- _].
    unfold inspected_device. cbn [type os browser].
    split; [destruct (regex_test _ ua); simpl; auto|].
    split.
    + destruct (token_or_unknown os_tokens ua os_tokens_nonempty)
        as [[_ ->]|(a & _ & Hin & ->)]; apply in_or_app; [right; by left|by left].
    + destruct (token_or_unknown browser_tokens ua browser_tokens_nonempty)
        as [[_ ->]|(a & _ & Hin & ->)]; apply in_or_app; [right; by left|by left].
  - intros H. pose proof (getDeviceInfo_opaque env (or_intror Hscr) w) as Hd.
    rewrite H in Hd. injection Hd as ->. simpl. auto 10.
  - intros H. pose proof (getDeviceInfo_opaque env (or_introl Hua) w) as Hd.
    rewrite H in Hd. injection Hd as ->. simpl. auto 10.
Qed.

Lemma getDeviceInfo_field_ranges_witness :
  In (type scenario_device) ["Mobile"; "Desktop"; "Unknown"] /\
  In (os scenario_device) (os_tokens ++ ["Unknown"]) /\
  In (browser scenario_device) (browser_tokens ++ ["Unknown"]).
Proof.
  apply (getDeviceInfo_field_ranges scenario_env blank_world scenario_device
           (snd (getDeviceInfo scenario_env blank_world))).
  vm_compute. reflexivity.
Defined.

(** X2.  When the user agent and the screen can be read, [type] is Mobile
    exactly when the user agent contains one of the mobile tokens and
    Desktop exactly when it contains none; [os] and [browser] are Unknown
    exactly when the user agent contains none of their tokens; and
    [screenResolution] is [<width>x<height>]. *)
Theorem getDeviceInfo_reads_user_agent env w ua sw sh :
  userAgent env = Some ua ->
  screen env = Some (sw, sh) ->
  exists dev,
    fst (getDeviceInfo env w) = Returned dev /\
    (type dev = "Mobile" <-> exists tok, In tok mobile_tokens /\ contains tok ua) /\
    (type dev = "Desktop" <-> forall tok, In tok mobile_tokens -> ~ contains tok ua) /\
    (os dev = "Unknown" <-> forall tok, In tok os_tokens -> ~ contains tok ua) /\
    (browser dev = "Unknown" <-> forall tok, In tok browser_tokens -> ~ contains tok ua) /\
    screenResolution dev = (dec_N sw ++ "x" ++ dec_N sh)%string.
Proof.
  intros Hua Hscr. rewrite (getDeviceInfo_inspected env ua sw sh Hua Hscr).
  eexists. split; [reflexivity|]. unfold inspected_device. cbn [type os browser screenResolution].
  assert (regex_test mobile_tokens ua = true <->
          exists tok, In tok mobile_tokens /\ contains tok ua) as Hmobile.
  { unfold regex_test. destruct (regex_exec mobile_tokens ua) as [a|] eqn:Hex; simpl.
    - apply regex_exec_Some in Hex as [? ?]. split; [intros _; exists a; by split|done].
    - rewrite regex_exec_None in Hex. split; [done|]. intros (tok & Hin & Hc).
      by destruct (Hex tok Hin). }
  split; [|split; [|split; [|split; [|done]]]].
  - destruct (regex_test mobile_tokens ua).
    + split; [intros _; by apply Hmobile|done].
    + split; [done|]. intros H. apply Hmobile in H. done.
  - destruct (regex_test mobile_tokens ua).
    + split; [done|]. intros H. destruct (proj1 Hmobile eq_refl) as (tok & Hin & Hc).
      by destruct (H tok Hin).
    + split; [|done]. intros _ tok Hin Hc.
      assert (false = true) by (apply Hmobile; eauto). done.
  - destruct (token_or_unknown os_tokens ua os_tokens_nonempty)
      as [[Hnone ->]|(a & Hsome & Hin & ->)].
    + by rewrite <- regex_exec_None.
    + split.
      * intros ->. by repeat destruct Hin as [Hin|Hin].
      * intros H. apply regex_exec_None in H. congruence.
  - destruct (token_or_unknown browser_tokens ua browser_tokens_nonempty)
      as [[Hnone ->]|(a & Hsome & Hin & ->)].
    + by rewrite <- regex_exec_None.
    + split.
      * intros ->. by repeat destruct Hin as [Hin|Hin].
      * intros H. apply regex_exec_None in H. congruence.
Qed.

Lemma getDeviceInfo_reads_user_agent_witness :
  exists dev,
    fst (getDeviceInfo scenario_env blank_world) = Returned dev /\
    type dev = "Mobile".
Proof.
  destruct (getDeviceInfo_reads_user_agent scenario_env blank_world
              "Mozilla/5.0 (Linux; Android 10) Chrome/99 Mobile Safari"
              1080%N 1920%N eq_refl eq_refl)
    as (dev & Hrun & Hmobile & _).
  exists dev. split; [exact Hrun|]. apply Hmobile. exists "Android".
  split; [simpl; tauto|].
  exists "Mozilla/5.0 (Linux; ", " 10) Chrome/99 Mobile Safari". reflexivity.
Defined.

(** ** getLocation *)

Lemma getLocation_granted env pos :
  getCurrentPosition env = inr pos ->
  exists l evs,
    (forall w, getLocation env w =
               (Returned {| lr_location := Some l; lr_error := None |},
                emits (CallGetCurrentPosition :: evs) w)) /\
    latitude l = c_latitude pos /\ longitude l = c_longitude pos.
Proof.
  intros Hpos.
  unfold getLocation, await_getCurrentPosition, await_fetch, await_json, data_address.
  rewrite Hpos. run_service.
  destruct (fetch_reverse env) as [e|[e|[d|]]]; simpl;
    (eexists _, _; split; [intros w; close_world|]; done).
Qed.

(** X3.  Whenever [getLocation] returns: with a fix from the platform
    the result has a location with exactly the platform's coordinates and
    no error, whatever the reverse geocoding did; with a rejected request
    it has no location and the classified message.  The store, the camera
    tracks and the clock are left as they were. *)
Theorem getLocation_succeeds_iff_fix env w r w' :
  getLocation env w = (Returned r, w') ->
  match getCurrentPosition env with
  | inr pos =>
      exists l, lr_location r = Some l /\ lr_error r = None /\
                latitude l = c_latitude pos /\ longitude l = c_longitude pos
  | inl e => lr_location r = None /\ lr_error r = Some (location_message e)
  end /\
  store w' = store w /\
  live_tracks w' = live_tracks w /\
  clock w' = clock w.
Proof.
  destruct (getCurrentPosition env) as [e|pos] eqn:Hpos.
  - rewrite (getLocation_rejected env e Hpos). by intros [= <- <-].
  - destruct (getLocation_granted env pos Hpos) as (l & evs & Hrun & Hlat & Hlon).
    rewrite Hrun. intros [= <- <-]. split; [|done]. by exists l.
Qed.

Lemma getLocation_succeeds_iff_fix_witness :
  (exists l,
     Some (coordinates_only fix_10_20) = Some l /\ (None : option string) = None /\
     latitude l = c_latitude fix_10_20 /\ longitude l = c_longitude fix_10_20) /\
  store (snd (getLocation scenario_env blank_world)) = store blank_world /\
  live_tracks (snd (getLocation scenario_env blank_world)) = live_tracks blank_world /\
  clock (snd (getLocation scenario_env blank_world)) = clock blank_world.
Proof.
  apply (getLocation_succeeds_iff_fix scenario_env blank_world
           {| lr_location := Some (coordinates_only fix_10_20); lr_error := None |}
           (snd (getLocation scenario_env blank_world))).
  vm_compute. reflexivity.
Defined.

Lemma toUpperCase_ascii_fixed c :
  let n := nat_of_ascii c in
  let u := if (97 <=? n)%nat && (n <=? 122)%nat then ascii_of_nat (n - 32) else c in
  let m := nat_of_ascii u in
  (if (97 <=? m)%nat && (m <=? 122)%nat then ascii_of_nat (m - 32) else u) = u.
Proof. by destruct c as [[] [] [] [] [] [] [] []]. Qed.

Lemma toUpperCase_idempotent s : toUpperCase (toUpperCase s) = toUpperCase s.
Proof.
  induction s as [|c s IH]; [done|]. simpl. rewrite IH. f_equal.
  apply toUpperCase_ascii_fixed.
Qed.

Lemma toUpperCase_ascii_only s : ascii_only s = true -> ascii_only (toUpperCase s) = true.
Proof.
  unfold ascii_only. induction s as [|c s IH]; [done|]. simpl.
  intros [Hc Hs]%andb_prop. rewrite (IH Hs), andb_true_r.
  revert Hc. by destruct c as [[] [] [] [] [] [] [] []].
Qed.

Lemma toUpperCase_length s : String.length (toUpperCase s) = String.length s.
Proof. induction s as [|c s IH]; simpl; congruence. Qed.

(** X4.  With a fix and a geocoding answer that has an address, the
    location carries the coordinates and the answer's country; [city] is
    the answer's city when that is a non-empty string and its town
    otherwise; [countryCode] is absent when the answer has none, and for
    a code made of ASCII characters it is the upper-cased code: ASCII
    again, of the same length and unchanged by a further upper-casing. *)
Theorem getLocation_enriched env w pos d a :
  getCurrentPosition env = inr pos ->
  fetch_reverse env = inr (inr (Some d)) ->
  address d = Some a ->
  exists l,
    fst (getLocation env w) = Returned {| lr_location := Some l; lr_error := None |} /\
    latitude l = c_latitude pos /\ longitude l = c_longitude pos /\
    country l = a_country a /\
    (forall c, a_city a = Some c -> c <> "" -> city l = Some c) /\
    (a_city a = None \/ a_city a = Some "" -> city l = a_town a) /\
    (a_country_code a = None -> countryCode l = None) /\
    (forall cc, a_country_code a = Some cc -> ascii_only cc = true ->
       exists up, countryCode l = Some up /\
                  ascii_only up = true /\
                  String.length up = String.length cc /\
                  toUpperCase up = up /\
                  toUpperCase cc = up).
Proof.
  intros Hpos Hfetch Haddr.
  unfold getLocation, await_getCurrentPosition, await_fetch, await_json, data_address.
  rewrite Hpos, Hfetch. run_service. rewrite Haddr. simpl.
  eexists. split; [reflexivity|]. simpl.
  repeat split.
  - intros c -> Hc. unfold js_or. simpl. by destruct (String.eqb_spec c "").
  - by intros [->| ->].
  - by intros ->.
  - intros cc -> Hascii. simpl. eexists. split; [reflexivity|].
    split; [by apply toUpperCase_ascii_only|].
    split; [apply toUpperCase_length|]. split; [apply toUpperCase_idempotent|done].
Qed.

Lemma getLocation_enriched_witness :
  exists l,
    fst (getLocation geocoded_env blank_world) =
      Returned {| lr_location := Some l; lr_error := None |} /\
    city l = Some "Paraty" /\
    countryCode l = Some "BR".
Proof.
  destruct (getLocation_enriched geocoded_env blank_world fix_10_20
              {| address := Some {| a_country := Some "Brasil";
                                    a_country_code := Some "br";
                                    a_city := None;
                                    a_town := Some "Paraty" |} |}
              {| a_country := Some "Brasil"; a_country_code := Some "br";
                 a_city := None; a_town := Some "Paraty" |}
              eq_refl eq_refl eq_refl)
    as (l & Hrun & _ & _ & _ & _ & Hcity & _ & Hcode).
  exists l. split; [exact Hrun|]. split; [apply Hcity; left; reflexivity|].
  destruct (Hcode "br" eq_refl eq_refl) as (up & Hup & _ & _ & _ & Heq).
  rewrite Hup, <- Heq. reflexivity.
Defined.

(** ** capturePhoto *)

Lemma capturePhoto_no_surface env stream :
  getUserMedia env = inr stream ->
  loadedmetadata env = true ->
  getContext2d env = false ->
  forall w,
    capturePhoto env w =
    (Returned {| pr_photo := None; pr_error := Some "Could not get canvas context" |},
     set_live_tracks (fun l => l ++ getTracks stream)
       (emits [CallGetUserMedia; VideoPlay; CanvasGetContext; PromiseResolve] w)).
Proof.
  intros Hcam Hmeta Hctx w.
  unfold capturePhoto, await_getUserMedia, canvas_getContext, resolve.
  rewrite Hcam, Hmeta, Hctx. run_service. close_world.
Qed.

Lemma capturePhoto_no_metadata env stream :
  getUserMedia env = inr stream ->
  loadedmetadata env = false ->
  forall w,
    capturePhoto env w =
    (Pending, set_live_tracks (fun l => l ++ getTracks stream) (emits [CallGetUserMedia] w)).
Proof.
  intros Hcam Hmeta w.
  unfold capturePhoto, await_getUserMedia. rewrite Hcam, Hmeta. run_service. close_world.
Qed.

(** X5.  [capturePhoto] never throws; when the camera is granted and the
    metadata-ready notification never comes, it stays pending; when it
    returns, exactly one of [photo] and [error] is set; it leaves the
    store and the clock as they were. *)
Theorem capturePhoto_contract env w :
  (forall e w', capturePhoto env w <> (Raised e, w')) /\
  (forall stream, getUserMedia env = inr stream -> loadedmetadata env = false ->
     exists w', capturePhoto env w = (Pending, w')) /\
  (forall r w', capturePhoto env w = (Returned r, w') ->
     exactly_one (pr_photo r) (pr_error r)) /\
  store (snd (capturePhoto env w)) = store w /\
  clock (snd (capturePhoto env w)) = clock w.
Proof.
  destruct (capturePhoto_run env) as (o & evs & f & Hrun & _ & Hshape).
  split; [|split; [|split]].
  - rewrite Hrun. intros e w'. destruct o; [congruence|done|congruence].
  - intros stream Hcam Hmeta. rewrite (capturePhoto_no_metadata env stream Hcam Hmeta).
    by eexists.
  - rewrite Hrun. intros r w' [= -> _]. simpl in Hshape.
    destruct Hshape as [_ [[? ?]|[? ?]]]; [left|right]; eauto using truthy_str_is_Some.
  - by rewrite Hrun.
Qed.

Lemma capturePhoto_contract_witness :
  (exists w', capturePhoto no_metadata_env blank_world = (Pending, w')) /\
  store (snd (capturePhoto no_metadata_env blank_world)) = store blank_world.
Proof.
  destruct (capturePhoto_contract no_metadata_env blank_world)
    as (_ & Hpending & _ & Hstore & _).
  split; [exact (Hpending one_track eq_refl eq_refl)|exact Hstore].
Defined.

(** ** trackAccess *)

(** X6.  When the camera is granted, the metadata arrives and a drawing
    surface exists, [trackAccess] returns a record with the encoded photo
    and no photo error, and none of the stream's tracks is capturing once
    it has returned. *)
Theorem trackAccess_releases_camera_after_encoding env linkId w stream :
  getUserMedia env = inr stream ->
  loadedmetadata env = true ->
  getContext2d env = true ->
  exists td w',
    trackAccess env linkId w = (Returned td, w') /\
    photo td = Some ("data:" ++ toDataURL env)%string /\
    err_photo (errors td) = None /\
    (forall t, In t (getTracks stream) -> ~ In t (live_tracks w')).
Proof.
  intros Hcam Hmeta Hctx.
  destruct (trackAccess_run env linkId w)
    as (dev & loc & o & evd & evl & evp & f & _ & _ & Hpho & _ & _ & _ & _ & _ & Ho).
  destruct (capturePhoto_encoded_releases_camera env stream w Hcam Hmeta Hctx)
    as (wp & Hrun & _ & Hlive).
  rewrite Hpho in Hrun. injection Hrun as -> Hwp.
  destruct Ho as (evs & W & HW & _ & _ & _ & HliveW). rewrite HW.
  eexists _, _. split; [reflexivity|].
  split; [by destruct (save_rejected env _)|].
  split; [by destruct (save_rejected env _)|].
  intros t Ht. rewrite HliveW. apply (f_equal live_tracks) in Hwp. simpl in Hwp.
  rewrite Hwp. by apply Hlive.
Qed.

Lemma trackAccess_releases_camera_after_encoding_witness :
  exists td w',
    trackAccess camera_env "abc123_user1" blank_world = (Returned td, w') /\
    photo td = Some "data:image/jpeg;base64,AAAA" /\
    ~ In 0 (live_tracks w').
Proof.
  destruct (trackAccess_releases_camera_after_encoding camera_env "abc123_user1"
              blank_world one_track eq_refl eq_refl eq_refl)
    as (td & w' & Hrun & Hphoto & _ & Hlive).
  exists td, w'. split; [exact Hrun|]. split; [exact Hphoto|].
  apply Hlive. left. reflexivity.
Defined.

(** X7.  When the camera is granted and the metadata arrives but no
    drawing surface exists, [trackAccess] returns a record without photo
    and with the canvas error, every track of the stream is still
    capturing after it has returned, and the whole run stopped no
    track. *)
Theorem trackAccess_keeps_camera_without_surface env linkId w stream :
  getUserMedia env = inr stream ->
  loadedmetadata env = true ->
  getContext2d env = false ->
  exists td w',
    trackAccess env linkId w = (Returned td, w') /\
    photo td = None /\
    err_photo (errors td) = Some "Could not get canvas context" /\
    live_tracks w' = live_tracks w ++ getTracks stream /\
    (forall t, ~ In (TrackStop t) (skipn (length (trace w)) (trace w'))).
Proof.
  intros Hcam Hmeta Hctx.
  destruct (trackAccess_run env linkId w)
    as (dev & loc & o & evd & evl & evp & f & Hdev & _ & Hpho & Hevd & Hevl & _ & _ & _ & Ho).
  pose proof (capturePhoto_no_surface env stream Hcam Hmeta Hctx w) as Hrun.
  rewrite Hpho in Hrun. injection Hrun as -> Hlive Htrace.
  apply app_inv_head in Htrace. injection Htrace as ->.
  destruct Ho as (evs & W & HW & Htr & Hevs & _ & HliveW). rewrite HW.
  eexists _, _. split; [reflexivity|].
  split; [by destruct (save_rejected env _)|].
  split; [by destruct (save_rejected env _)|].
  split; [by rewrite HliveW|].
  rewrite Htr, skipn_app, skipn_all, Nat.sub_diag, skipn_O, app_nil_l.
  set (quiet := fun e => match e with TrackStop _ => false | _ => true end).
  assert (forall l, forallb (fun e => negb (is_photo_event e)) l = true ->
                    forallb quiet l = true) as Hquiet.
  { induction l as [|e l IH]; [done|]. simpl. intros [He Hl]%andb_prop.
    rewrite (IH Hl). by destruct e. }
  assert (forallb quiet evs = true) as Hquiet'.
  { clear -Hevs. induction evs as [|e l IH]; [done|]. simpl in *.
    apply andb_prop in Hevs as [He Hl]. rewrite (IH Hl). by destruct e. }
  pose proof (Hquiet _ Hevd) as Hqd. pose proof (Hquiet _ Hevl) as Hql.
  intros t Hin.
  match type of Hin with
  | In _ ?L => assert (forallb quiet L = true) as Hall
  end.
  { unfold photo_field. repeat (rewrite ?forallb_app, ?Hqd, ?Hql, ?Hquiet'; simpl). done. }
  rewrite forallb_forall in Hall. by specialize (Hall _ Hin).
Qed.

Lemma trackAccess_keeps_camera_without_surface_witness :
  exists td w',
    trackAccess no_surface_env "abc123_user1" blank_world = (Returned td, w') /\
    err_photo (errors td) = Some "Could not get canvas context" /\
    live_tracks w' = [0].
Proof.
  destruct (trackAccess_keeps_camera_without_surface no_surface_env "abc123_user1"
              blank_world one_track eq_refl eq_refl eq_refl)
    as (td & w' & Hrun & _ & Herr & Hlive & _).
  exists td, w'. split; [exact Hrun|]. split; [exact Herr|exact Hlive].
Defined.

(** X8.  When the camera is granted and the metadata-ready notification
    never comes, [trackAccess] never settles: the location request has
    been made, nothing is written to the store, and the stream's tracks
    keep capturing. *)
Theorem trackAccess_hangs_without_metadata env linkId w stream :
  getUserMedia env = inr stream ->
  loadedmetadata env = false ->
  exists W,
    trackAccess env linkId w = (Pending, W) /\
    store W = store w /\
    live_tracks W = live_tracks w ++ getTracks stream /\
    In CallGetCurrentPosition (trace W).
Proof.
  intros Hcam Hmeta.
  destruct (getDeviceInfo_run env) as (dev & evd & Hdev & _ & _).
  destruct (getLocation_run env) as (loc & evl & Hloc & _ & Hlshape).
  pose proof (capturePhoto_no_metadata env stream Hcam Hmeta) as Hpho.
  unfold trackAccess, Date_now, with_local, save_access, merge_location, merge_photo,
    assign, lift, read_local, update_local.
  run_service. rewrite Hdev. simpl. rewrite Hloc. simpl.
  destruct loc as [l le]. simpl in *.
  destruct Hlshape as [[[l' ->] ->]|[-> Hle]]; simpl; rewrite ?Hle; simpl;
    rewrite Hpho; simpl.
  all: eexists; split; [reflexivity|]; simpl; repeat split.
  all: rewrite !in_app_iff; simpl; tauto.
Qed.

Lemma trackAccess_hangs_without_metadata_witness :
  exists W,
    trackAccess no_metadata_env "abc123_user1" blank_world = (Pending, W) /\
    store W = store blank_world /\
    live_tracks W = [0].
Proof.
  destruct (trackAccess_hangs_without_metadata no_metadata_env "abc123_user1"
              blank_world one_track eq_refl eq_refl)
    as (W & Hrun & Hstore & Hlive & _).
  exists W. split; [exact Hrun|]. split; [exact Hstore|exact Hlive].
Defined.

(** X9.  When the store accepts the write, the record [trackAccess]
    returns is the value held under the access path afterwards, it has no
    [errors.save], and every other path of the store is untouched. *)
Theorem trackAccess_persists_what_it_returns env linkId w td w' :
  trackAccess env linkId w = (Returned td, w') ->
  save_rejected env (access_path env linkId w) = false ->
  store w' !! access_path env linkId w = Some (DbAccess td) /\
  err_save (errors td) = None /\
  (forall p, p <> access_path env linkId w -> store w' !! p = store w !! p).
Proof.
  intros Hrun Hok.
  destruct (trackAccess_run env linkId w)
    as (dev & loc & o & evd & evl & evp & f & _ & _ & _ & _ & _ & _ & _ & _ & Ho).
  destruct o as [pho| |]; [|done|destruct Ho as (W & HW & _); congruence].
  destruct Ho as (evs & W & HW & _ & _ & Hstore & _).
  rewrite Hok in *. rewrite HW in Hrun. injection Hrun as <- <-.
  rewrite Hstore. split; [apply lookup_insert_eq|]. split; [done|].
  intros p Hp. by apply lookup_insert_ne.
Qed.

Lemma trackAccess_persists_what_it_returns_witness :
  store (snd (trackAccess scenario_env "abc123_user1" blank_world))
    !! access_path scenario_env "abc123_user1" blank_world =
    Some (DbAccess scenario_record) /\
  err_save (errors scenario_record) = None /\
  (forall p, p <> access_path scenario_env "abc123_user1" blank_world ->
     store (snd (trackAccess scenario_env "abc123_user1" blank_world)) !! p =
     store blank_world !! p).
Proof.
  apply (trackAccess_persists_what_it_returns scenario_env "abc123_user1" blank_world
           scenario_record (snd (trackAccess scenario_env "abc123_user1" blank_world)));
    vm_compute; reflexivity.
Defined.

(** X10.  Every record [trackAccess] returns has a [device], has no
    [ip], has the first clock reading as its [timestamp], and has
    [errors.save] either absent or "Failed to save tracking data"; the
    annotation of the outer [catch], "Unexpected error during tracking",
    never occurs. *)
Theorem trackAccess_record_invariants env linkId w td w' :
  trackAccess env linkId w = (Returned td, w') ->
  is_Some (device td) /\
  ip td = None /\
  timestamp td = date_now env (clock w) /\
  (err_save (errors td) = None \/
   err_save (errors td) = Some "Failed to save tracking data") /\
  err_save (errors td) <> Some "Unexpected error during tracking".
Proof.
  intros Hrun.
  destruct (trackAccess_run env linkId w)
    as (dev & loc & o & evd & evl & evp & f & _ & _ & _ & _ & _ & _ & _ & _ & Ho).
  destruct o as [pho| |]; [|done|destruct Ho as (W & HW & _); congruence].
  destruct Ho as (evs & W & HW & _). rewrite HW in Hrun. injection Hrun as <- _.
  destruct (save_rejected env _); simpl; eauto 10.
Qed.

Lemma trackAccess_record_invariants_witness :
  is_Some (device unsaved_record) /\
  ip unsaved_record = None /\
  timestamp unsaved_record = date_now store_down_env (clock blank_world) /\
  (err_save (errors unsaved_record) = None \/
   err_save (errors unsaved_record) = Some "Failed to save tracking data") /\
  err_save (errors unsaved_record) <> Some "Unexpected error during tracking".
Proof.
  apply (trackAccess_record_invariants store_down_env "abc123_user1" blank_world
           unsaved_record (snd (trackAccess store_down_env "abc123_user1" blank_world))).
  vm_compute. reflexivity.
Defined.

Lemma trackAccess_store env linkId w td w' :
  trackAccess env linkId w = (Returned td, w') ->
  save_rejected env (access_path env linkId w) = false ->
  store w' = <[access_path env linkId w := DbAccess td]> (store w).
Proof.
  intros Hrun Hok.
  destruct (trackAccess_run env linkId w)
    as (dev & loc & o & evd & evl & evp & f & _ & _ & _ & _ & _ & _ & _ & _ & Ho).
  destruct o as [pho| |]; [|done|destruct Ho as (W & HW & _); congruence].
  destruct Ho as (evs & W & HW & _ & _ & Hstore & _).
  rewrite HW in Hrun. rewrite Hok in *. by injection Hrun as <- <-.
Qed.

(** X11.  Two visits to the same link whose second clock readings agree
    write to the same path: the first record is stored, then replaced by
    the second, and the store ends as if only the second visit had
    written. *)
Theorem trackAccess_same_path_overwrites env1 env2 linkId w td1 w1 td2 w2 :
  trackAccess env1 linkId w = (Returned td1, w1) ->
  trackAccess env2 linkId w1 = (Returned td2, w2) ->
  save_rejected env1 (access_path env1 linkId w) = false ->
  save_rejected env2 (access_path env2 linkId w1) = false ->
  access_path env2 linkId w1 = access_path env1 linkId w ->
  store w1 !! access_path env1 linkId w = Some (DbAccess td1) /\
  store w2 !! access_path env1 linkId w = Some (DbAccess td2) /\
  store w2 = <[access_path env1 linkId w := DbAccess td2]> (store w).
Proof.
  intros Hrun1 Hrun2 Hok1 Hok2 Hpath.
  pose proof (trackAccess_store _ _ _ _ _ Hrun1 Hok1) as Hs1.
  pose proof (trackAccess_store _ _ _ _ _ Hrun2 Hok2) as Hs2.
  rewrite Hpath in Hs2. rewrite Hs2, Hs1.
  split; [apply lookup_insert_eq|]. split; [apply lookup_insert_eq|].
  apply insert_insert_eq.
Qed.

Lemma trackAccess_same_path_overwrites_witness :
  store after_first_visit !! access_path first_visit_env "abc123_user1" blank_world =
    Some (DbAccess first_visit_record) /\
  store after_second_visit !! access_path first_visit_env "abc123_user1" blank_world =
    Some (DbAccess second_visit_record) /\
  store after_second_visit =
    <[access_path first_visit_env "abc123_user1" blank_world :=
        DbAccess second_visit_record]> (store blank_world).
Proof.
  apply (trackAccess_same_path_overwrites first_visit_env second_visit_env
           "abc123_user1" blank_world first_visit_record after_first_visit
           second_visit_record after_second_visit);
    vm_compute; reflexivity.
Defined.

(** ** The older service *)

Lemma legacy_getLocation_run env :
  exists r evs,
    (forall w, Legacy.getLocation env w =
               (Returned r, emits (CallGetCurrentPosition :: evs) w)) /\
    one_sided (lr_location r) (lr_error r) /\
    (lr_error r = None \/ lr_error r = Some "Location access denied") /\
    (is_Some (lr_location r) <->
     exists pos, getCurrentPosition env = inr pos /\ geocoding_fails env = false).
Proof.
  unfold Legacy.getLocation, await_getCurrentPosition, await_fetch, await_json,
    data_address, geocoding_fails.
  run_service.
  destruct (getCurrentPosition env) as [e|pos]; simpl.
  - eexists _, _. split; [intros w; close_world|]. split; [by right|].
    split; [by right|]. split; [by intros [? ?]|by intros (? & ? & _)].
  - destruct (fetch_reverse env) as [e|[e|[d|]]]; simpl;
      (eexists _, _; split; [intros w; close_world|]).
    1,2,4: (split; [by right|]; split; [by right|];
            split; [by intros [? ?]|by intros (? & _ & ?)]).
    split; [left; split; [by eexists|done]|]. split; [by left|].
    split; [intros _; by exists pos|by eexists].
Qed.

Lemma legacy_capturePhoto_run env :
  exists o f evs,
    (forall w, Legacy.capturePhoto env w =
               (o, set_live_tracks f (emits (CallGetUserMedia :: evs) w))) /\
    photo_shape env o.
Proof.
  unfold Legacy.capturePhoto, await_getUserMedia, canvas_getContext, canvas_toDataURL,
    resolve, photo_shape, photo_settles.
  destruct (getUserMedia env) as [e|stream].
  - eexists _, (fun l => l), _. split; [intros w; run_service; close_world|].
    simpl. split; [done|]. by right.
  - destruct (loadedmetadata env); [destruct (getContext2d env)|].
    + eexists _, (fun l => stop_all (getTracks stream) (l ++ getTracks stream)), _. split.
      * intros w. run_service. rewrite forEach_stop_run. close_world.
      * simpl. split; [done|]. by left.
    + eexists _, (fun l => l ++ getTracks stream), _. split.
      * intros w. run_service. close_world.
      * simpl. split; [done|]. by right.
    + eexists _, (fun l => l ++ getTracks stream), _. split.
      * intros w. run_service. close_world.
      * done.
Qed.

Lemma legacy_trackAccess_run env linkId w :
  exists dev loc o,
    (forall v, fst (getDeviceInfo env v) = Returned dev) /\
    (forall v, fst (Legacy.getLocation env v) = Returned loc) /\
    (forall v, fst (Legacy.capturePhoto env v) = o) /\
    photo_shape env o /\
    match o with
    | Returned pho =>
        let td := collected (date_now env (clock w)) dev loc pho in
        let path := access_path env linkId w in
        match db_ref_error env path, db_write env path with
        | Some e, _ | None, Some e =>
            exists W, Legacy.trackAccess env linkId w = (Raised (Foreign e), W) /\
                      store W = store w
        | None, None =>
            exists W, Legacy.trackAccess env linkId w = (Returned td, W) /\
                      store W = <[path := DbAccess td]> (store w)
        end
    | Pending => exists W, Legacy.trackAccess env linkId w = (Pending, W) /\ store W = store w
    | Raised _ => False
    end.
Proof.
  destruct (getDeviceInfo_run env) as (dev & evd & Hdev & _ & _).
  destruct (legacy_getLocation_run env) as (loc & evl & Hloc & Hlshape & _).
  destruct (legacy_capturePhoto_run env) as (o & f & evp & Hpho & Hpshape).
  exists dev, loc, o.
  split; [intros v; by rewrite Hdev|]. split; [intros v; by rewrite Hloc|].
  split; [intros v; by rewrite Hpho|]. split; [done|].
  unfold Legacy.trackAccess, Date_now, with_local, merge_location, merge_photo,
    assign, lift, read_local, update_local, db_ref, db_set, access_path, collected.
  run_service. rewrite Hdev. simpl. rewrite Hloc. simpl.
  destruct loc as [l le]. simpl in *.
  destruct Hlshape as [[[l' ->] ->]|[-> Hle]]; simpl; rewrite ?Hle; simpl;
    rewrite Hpho; simpl.
  all: destruct o as [[p pe]| |]; simpl in *; [|done|by eexists].
  all: destruct Hpshape as [_ [[Hp ->]|[-> Hpe]]]; simpl; rewrite ?Hp, ?Hpe; simpl.
  all: destruct (db_ref_error env _); simpl; [|destruct (db_write env _); simpl].
  all: by eexists.
Qed.

(** X12.  The older [trackAccess], when the photo step settles, throws
    exactly when the path or the write is refused; what it throws is the
    store's own error, and the store is left as it was; when it returns,
    the returned record is what the access path holds and it has no
    [errors.save]. *)
Theorem legacy_trackAccess_throws_iff_save_rejected env linkId w :
  photo_settles env = true ->
  ((exists e W, Legacy.trackAccess env linkId w = (Raised e, W))
   <-> save_rejected env (access_path env linkId w) = true) /\
  (forall e W, Legacy.trackAccess env linkId w = (Raised e, W) ->
     store W = store w /\
     exists pe, e = Foreign pe /\
       (db_ref_error env (access_path env linkId w) = Some pe \/
        db_write env (access_path env linkId w) = Some pe)) /\
  (forall td W, Legacy.trackAccess env linkId w = (Returned td, W) ->
     store W = <[access_path env linkId w := DbAccess td]> (store w) /\
     err_save (errors td) = None).
Proof.
  intros Hsettles.
  destruct (legacy_trackAccess_run env linkId w)
    as (dev & loc & o & _ & _ & _ & Hshape & Ho).
  destruct o as [pho| |]; [|done|simpl in Hshape; congruence].
  cbv zeta in Ho. unfold save_rejected.
  destruct (db_ref_error env (access_path env linkId w)) as [e|] eqn:Href;
    [|destruct (db_write env (access_path env linkId w)) as [e|] eqn:Hwrite];
    destruct Ho as (W & HW & Hstore); rewrite HW.
  - split; [split; [done|eauto]|]. split; [|congruence].
    intros e' W' [= <- <-]. split; [done|]. exists e. auto.
  - split; [split; [done|eauto]|]. split; [|congruence].
    intros e' W' [= <- <-]. split; [done|]. exists e. auto.
  - split; [split; [intros (? & ? & ?); congruence|done]|]. split; [congruence|].
    by intros td W' [= <- <-].
Qed.

Lemma legacy_trackAccess_throws_iff_save_rejected_witness :
  exists e W, Legacy.trackAccess store_down_env "abc123_user1" blank_world = (Raised e, W).
Proof.
  destruct (legacy_trackAccess_throws_iff_save_rejected store_down_env "abc123_user1"
              blank_world eq_refl) as (Hiff & _).
  apply Hiff. vm_compute. reflexivity.
Defined.

(** X13.  Whenever the older [getLocation] returns, it reports a
    location exactly when the platform gave a fix and the reverse
    geocoding did not fail; in every other case, a discarded fix
    included, the error is "Location access denied". *)
Theorem legacy_getLocation_needs_geocoding env w r w' :
  Legacy.getLocation env w = (Returned r, w') ->
  (is_Some (lr_location r) <->
   exists pos, getCurrentPosition env = inr pos /\ geocoding_fails env = false) /\
  (lr_location r = None -> lr_error r = Some "Location access denied").
Proof.
  destruct (legacy_getLocation_run env) as (r0 & evs & Hrun & Hshape & Hmsg & Hiff).
  rewrite Hrun. intros [= <- <-]. split; [done|].
  intros Hnone. destruct Hshape as [[[? ?] _]|[_ Htruthy]]; [congruence|].
  destruct Hmsg as [Hm|Hm]; [|done]. by rewrite Hm in Htruthy.
Qed.

Lemma legacy_getLocation_needs_geocoding_witness :
  (is_Some (None : option Location) <->
   exists pos, getCurrentPosition scenario_env = inr pos /\
               geocoding_fails scenario_env = false) /\
  ((None : option Location) = None ->
   Some "Location access denied" = Some "Location access denied").
Proof.
  apply (legacy_getLocation_needs_geocoding scenario_env blank_world
           {| lr_location := None; lr_error := Some "Location access denied" |}
           (snd (Legacy.getLocation scenario_env blank_world))).
  vm_compute. reflexivity.
Defined.

(** ** The tracking page *)

Lemma handleTracking_run service linkId p w :
  linkId <> "" ->
  handleTracking service (Some linkId) (p, w) =
  match service linkId w with
  | (Returned td, w') => (Returned tt, (page_after_success p td, w'))
  | (Raised e, w') =>
      (Returned tt, (page_after_failure p, emits [ConsoleError "Error during tracking:"] w'))
  | (Pending, w') => (Pending, (page_while_waiting p, w'))
  end.
Proof.
  intros Hne. unfold handleTracking, announce_steps, setStatus, setProgress, setError,
    setPermissionWarnings, schedule_navigate, sleep, lift, update_local.
  simpl. destruct (String.eqb_spec linkId ""); [done|]. simpl.
  run_service. by destruct (service linkId w) as [[td|e|] w'].
Qed.

(** X14.  With a missing or empty [linkId] the page only sets the error
    "Link inválido": whatever the service, it is not called, the world is
    unchanged, and status, progress, warnings and redirects stay as they
    were. *)
Theorem handleTracking_without_link service linkId p w :
  linkId = None \/ linkId = Some "" ->
  handleTracking service linkId (p, w) =
  (Returned tt,
   ({| page_status := page_status p; page_error := "Link inválido";
       page_progress := page_progress p; permissionWarnings := permissionWarnings p;
       navigations := navigations p |}, w)).
Proof. by intros [->| ->]. Qed.

Lemma collect_warnings_spec td :
  (In location_warning (collect_warnings td)
   <-> truthy_str (err_location (errors td)) = true) /\
  (In photo_warning (collect_warnings td)
   <-> truthy_str (err_photo (errors td)) = true).
Proof.
  unfold collect_warnings.
  destruct (truthy_str (err_location (errors td))),
    (truthy_str (err_photo (errors td))); simpl; split; split;
    try done; try tauto; intros H; repeat destruct H as [H|H]; done.
Qed.

Lemma handleTracking_without_link_witness :
  handleTracking (trackAccess scenario_env) None (initial_page, blank_world) =
  (Returned tt,
   ({| page_status := page_status initial_page; page_error := "Link inválido";
       page_progress := page_progress initial_page;
       permissionWarnings := permissionWarnings initial_page;
       navigations := navigations initial_page |}, blank_world)).
Proof.
  apply (handleTracking_without_link (trackAccess scenario_env) None initial_page
           blank_world).
  left. reflexivity.
Defined.

Lemma location_error_iff_rejected env loc :
  (forall v, fst (getLocation env v) = Returned loc) ->
  truthy_str (lr_error loc) = true <-> exists e, getCurrentPosition env = inl e.
Proof.
  intros Hloc. specialize (Hloc blank_world).
  destruct (getCurrentPosition env) as [e|pos] eqn:Hpos.
  - rewrite (getLocation_rejected env e Hpos) in Hloc. injection Hloc as <-.
    split; [eauto|]. intros _. unfold location_message. simpl. by case_if.
  - destruct (getLocation_granted env pos Hpos) as (l & evs & Hrun & _).
    rewrite Hrun in Hloc. injection Hloc as <-. split; [done|]. by intros [? ?].
Qed.

Lemma photo_error_iff_not_captured env pho :
  (forall v, fst (capturePhoto env v) = Returned pho) ->
  truthy_str (pr_error pho) = true <-> photo_captured env = false.
Proof.
  intros Hpho. specialize (Hpho blank_world). unfold photo_captured.
  destruct (getUserMedia env) as [e|stream] eqn:Hcam.
  - rewrite (capturePhoto_rejected env e Hcam) in Hpho. injection Hpho as <-.
    split; [done|]. intros _. unfold camera_message. simpl. by case_if.
  - destruct (loadedmetadata env) eqn:Hmeta; [destruct (getContext2d env) eqn:Hctx|].
    + destruct (capturePhoto_encoded_releases_camera env stream blank_world Hcam Hmeta Hctx)
        as (w' & Hrun & _).
      rewrite Hrun in Hpho. by injection Hpho as <-.
    + rewrite (capturePhoto_no_surface env stream Hcam Hmeta Hctx) in Hpho.
      by injection Hpho as <-.
    + by rewrite (capturePhoto_no_metadata env stream Hcam Hmeta) in Hpho.
Qed.

(** X15.  With the current [trackAccess], whenever the call of the
    service returns, the page ends with no error, progress 100, the
    completion status and one redirect to "/" scheduled.  The location
    warning is shown exactly when the location request was rejected, the
    photo warning exactly when no photo was captured, and nothing else is
    shown.  A refused write changes none of this: the record carries
    [errors.save], the store is as it was, and the page reports
    completion. *)
Theorem page_completes_with_current_service env linkId w td w' :
  linkId <> "" ->
  trackAccess env linkId w = (Returned td, w') ->
  exists page',
    handleTracking (trackAccess env) (Some linkId) (initial_page, w) =
      (Returned tt, (page', w')) /\
    page_error page' = "" /\
    page_progress page' = 100%Z /\
    page_status page' = "Rastreamento concluído!" /\
    navigations page' = ["/"] /\
    (In location_warning (permissionWarnings page')
     <-> exists e, getCurrentPosition env = inl e) /\
    (In photo_warning (permissionWarnings page') <-> photo_captured env = false) /\
    (forall m, In m (permissionWarnings page') -> m = location_warning \/ m = photo_warning) /\
    (save_rejected env (access_path env linkId w) = true ->
     err_save (errors td) = Some "Failed to save tracking data" /\ store w' = store w).
Proof.
  intros Hne Hservice. rewrite (handleTracking_run _ _ _ _ Hne).
  destruct (trackAccess_run env linkId w)
    as (dev & loc & o & evd & evl & evp & f & _ & Hloc & Hpho & _ & _ & _ & _ & Hp & Ho).
  destruct o as [pho| |]; [|done|destruct Ho as (W & HW & _); congruence].
  destruct Ho as (evs & W & HW & _ & _ & Hstore & _).
  rewrite HW in Hservice. injection Hservice as <- <-. rewrite HW.
  eexists. split; [reflexivity|]. simpl.
  repeat (split; [done|]).
  assert (forall v, fst (getLocation env v) = Returned loc) as Hloc'
    by (intros v; by rewrite Hloc).
  assert (forall v, fst (capturePhoto env v) = Returned pho) as Hpho'
    by (intros v; by rewrite Hpho).
  rewrite <- (location_error_iff_rejected env loc Hloc').
  rewrite <- (photo_error_iff_not_captured env pho Hpho').
  assert (forall t m, In m (collect_warnings t) -> m = location_warning \/ m = photo_warning)
    as Honly.
  { intros t m. unfold collect_warnings.
    destruct (truthy_str (err_location (errors t))),
      (truthy_str (err_photo (errors t))); simpl; intuition. }
  destruct (save_rejected env _); (split; [apply collect_warnings_spec|]);
    (split; [apply collect_warnings_spec|]); (split; [apply Honly|]); [done|intros; done].
Qed.

Lemma page_completes_with_current_service_witness :
  exists page',
    handleTracking (trackAccess store_down_env) (Some "abc123_user1")
      (initial_page, blank_world) =
      (Returned tt, (page', snd (trackAccess store_down_env "abc123_user1" blank_world))) /\
    page_progress page' = 100%Z /\
    In photo_warning (permissionWarnings page') /\
    store (snd (trackAccess store_down_env "abc123_user1" blank_world)) = store blank_world.
Proof.
  destruct (page_completes_with_current_service store_down_env "abc123_user1"
              blank_world unsaved_record
              (snd (trackAccess store_down_env "abc123_user1" blank_world))
              ltac:(discriminate) ltac:(vm_compute; reflexivity))
    as (page' & Hrun & _ & Hprogress & _ & _ & _ & Hphoto & _ & Hsave).
  exists page'. split; [exact Hrun|]. split; [exact Hprogress|].
  split; [apply Hphoto; reflexivity|]. apply Hsave. vm_compute. reflexivity.
Defined.

(** X16.  With the current [trackAccess], when the photo step never
    settles the page never leaves the state shown before the call: status
    "Salvando informações...", progress 75, no error and no redirect. *)
Theorem page_waits_for_ever_without_metadata env linkId w :
  linkId <> "" ->
  photo_settles env = false ->
  exists w',
    handleTracking (trackAccess env) (Some linkId) (initial_page, w) =
      (Pending, (page_while_waiting initial_page, w')) /\
    page_progress (page_while_waiting initial_page) = 75%Z /\
    navigations (page_while_waiting initial_page) = [] /\
    page_error (page_while_waiting initial_page) = "".
Proof.
  intros Hne Hsettles. rewrite (handleTracking_run _ _ _ _ Hne).
  destruct (trackAccess_run env linkId w)
    as (dev & loc & o & evd & evl & evp & f & _ & _ & _ & _ & _ & _ & _ & Hp & Ho).
  destruct o as [pho| |]; [simpl in Hp; destruct Hp; congruence|done|].
  destruct Ho as (W & -> & _). by eexists.
Qed.

Lemma page_waits_for_ever_without_metadata_witness :
  exists w',
    handleTracking (trackAccess no_metadata_env) (Some "abc123_user1")
      (initial_page, blank_world) = (Pending, (page_while_waiting initial_page, w')).
Proof.
  destruct (page_waits_for_ever_without_metadata no_metadata_env "abc123_user1"
              blank_world ltac:(discriminate) eq_refl) as (w' & Hrun & _).
  exists w'. exact Hrun.
Defined.

(** X17.  With the older [trackAccess], a refused write makes the page
    show "Ocorreu um erro durante o rastreamento" with progress left at
    75 and no redirect, the store being as it was. *)
Theorem page_reports_error_with_older_service env linkId w :
  linkId <> "" ->
  photo_settles env = true ->
  save_rejected env (access_path env linkId w) = true ->
  exists w',
    handleTracking (Legacy.trackAccess env) (Some linkId) (initial_page, w) =
      (Returned tt, (page_after_failure initial_page, w')) /\
    page_error (page_after_failure initial_page) =
      "Ocorreu um erro durante o rastreamento" /\
    page_progress (page_after_failure initial_page) = 75%Z /\
    navigations (page_after_failure initial_page) = [] /\
    store w' = store w.
Proof.
  intros Hne Hsettles Hrej. rewrite (handleTracking_run _ _ _ _ Hne).
  destruct (legacy_trackAccess_run env linkId w)
    as (dev & loc & o & _ & _ & _ & Hshape & Ho).
  destruct o as [pho| |]; [|done|simpl in Hshape; congruence].
  cbv zeta in Ho. unfold save_rejected in Hrej.
  destruct (db_ref_error env (access_path env linkId w)) as [e|];
    [|destruct (db_write env (access_path env linkId w)) as [e|]; [|done]];
    destruct Ho as (W & -> & Hstore); by eexists.
Qed.

Lemma page_reports_error_with_older_service_witness :
  exists w',
    handleTracking (Legacy.trackAccess store_down_env) (Some "abc123_user1")
      (initial_page, blank_world) = (Returned tt, (page_after_failure initial_page, w')) /\
    store w' = store blank_world.
Proof.
  destruct (page_reports_error_with_older_service store_down_env "abc123_user1"
              blank_world ltac:(discriminate) eq_refl ltac:(vm_compute; reflexivity))
    as (w' & Hrun & _ & _ & _ & Hstore).
  exists w'. split; [exact Hrun|exact Hstore].
Defined.

(** ** The link-access listing *)

Section ListingFacts.
Context {Payload : Type} (Number : string -> option Z).
Implicit Types (d : Listing Payload) (l : list (LinkAccess Payload)).

Lemma sort_insert_perm (x : LinkAccess Payload) l : Permutation (sort_insert x l) (x :: l).
Proof.
  induction l as [|y l IH]; simpl; [done|].
  destruct (newer y x); [|done]. rewrite IH. apply perm_swap.
Qed.

Lemma sort_newest_first_perm l : Permutation (sort_newest_first l) l.
Proof.
  induction l as [|x l IH]; simpl; [done|]. rewrite sort_insert_perm. by constructor.
Qed.

Lemma newer_trans (a b c : LinkAccess Payload) :
  numeric a -> numeric b -> numeric c ->
  newer b a = false -> newer c b = false -> newer c a = false.
Proof.
  intros [x Hx] [y Hy] [z Hz]. unfold newer. rewrite Hx, Hy, Hz.
  rewrite !Z.ltb_ge. lia.
Qed.

Lemma sort_insert_sorted (x : LinkAccess Payload) l :
  numeric x -> Forall numeric l -> newest_first l -> newest_first (sort_insert x l).
Proof.
  intros Hx Hnum Hsorted. induction Hsorted as [|y l Hl IH Hy]; simpl.
  - repeat constructor.
  - apply Forall_cons in Hnum as [Hynum Hlnum].
    destruct (newer y x) eqn:Hyx.
    + constructor; [by apply IH|].
      rewrite (sort_insert_perm x l). constructor; [|done].
      destruct Hx as [a Ha], Hynum as [b Hb]. unfold newer in *. rewrite Ha, Hb in *.
      apply Z.ltb_lt in Hyx. apply Z.ltb_ge. lia.
    + constructor; [by constructor|]. constructor; [done|].
      rewrite Forall_forall in Hy, Hlnum. apply Forall_forall. intros z Hz.
      apply (newer_trans x y z); auto.
Qed.

Lemma sort_newest_first_sorted l :
  Forall numeric l -> newest_first (sort_newest_first l).
Proof.
  induction l as [|x l IH]; simpl; [constructor|].
  intros [Hx Hl]%Forall_cons. apply sort_insert_sorted; [done| |by apply IH].
  by rewrite sort_newest_first_perm.
Qed.

Lemma on_accesses_snapshot_run d k linkId n old entries :
  accesses_listeners d !! k = Some (linkId, n) ->
  arrays d !! n = Some old ->
  on_accesses_snapshot Number k (Some entries) d =
  {| links_listener := links_listener d;
     arrays := <[n := sort_newest_first (old ++ new_entries Number linkId entries)]> (arrays d);
     accesses_listeners := accesses_listeners d;
     callback_calls :=
       callback_calls d ++ [sort_newest_first (old ++ new_entries Number linkId entries)] |}.
Proof. intros Hk Hn. unfold on_accesses_snapshot. by rewrite Hk, Hn. Qed.

(** X18.  An accesses listener only adds to its array: after a snapshot
    the callback receives a permutation of what the array held plus the
    snapshot's entries, and that is the array's new content; delivering
    the same snapshot again shows every entry of it twice. *)
Theorem accesses_listener_accumulates d k linkId n old entries :
  accesses_listeners d !! k = Some (linkId, n) ->
  arrays d !! n = Some old ->
  let d1 := on_accesses_snapshot Number k (Some entries) d in
  let d2 := on_accesses_snapshot Number k (Some entries) d1 in
  exists shown1 shown2,
    last (callback_calls d1) = Some shown1 /\
    arrays d1 !! n = Some shown1 /\
    Permutation shown1 (old ++ new_entries Number linkId entries) /\
    last (callback_calls d2) = Some shown2 /\
    Permutation shown2
      (old ++ new_entries Number linkId entries ++ new_entries Number linkId entries) /\
    length shown2 = length old + 2 * length entries.
Proof.
  intros Hk Hn d1 d2.
  assert (n < length (arrays d)) as Hlen by (by eapply lookup_lt_Some).
  unfold d2, d1. rewrite (on_accesses_snapshot_run d k linkId n old entries Hk Hn).
  erewrite on_accesses_snapshot_run; [|exact Hk|by apply list_lookup_insert_eq].
  simpl. eexists _, _. rewrite !last_snoc.
  split; [reflexivity|]. split; [by apply list_lookup_insert_eq|].
  split; [apply sort_newest_first_perm|]. split; [reflexivity|].
  assert (Permutation
            (sort_newest_first
               (sort_newest_first (old ++ new_entries Number linkId entries) ++
                new_entries Number linkId entries))
            (old ++ new_entries Number linkId entries ++ new_entries Number linkId entries)) as Hperm.
  { rewrite sort_newest_first_perm, sort_newest_first_perm. by rewrite <- app_assoc. }
  split; [exact Hperm|].
  rewrite (Permutation_length Hperm), !length_app. unfold new_entries.
  rewrite !length_map. lia.
Qed.

Lemma strongly_sorted_lookup {A : Type} (R : A -> A -> Prop) (l : list A) :
  StronglySorted R l ->
  forall i j a b, i < j -> l !! i = Some a -> l !! j = Some b -> R a b.
Proof.
  induction 1 as [|x l Hl IH Hx]; intros i j a b Hij Ha Hb; [done|].
  destruct i as [|i], j as [|j]; try lia; simpl in *.
  - injection Ha as <-. rewrite Forall_lookup in Hx. by eapply Hx.
  - eapply IH; [|done..]. lia.
Qed.

(** X19.  When all timestamps are numbers (the array's, and for each new
    entry its own timestamp or else its key), the list handed to the
    callback is ordered newest first: an earlier position never has a
    smaller timestamp than a later one. *)
Theorem accesses_listener_sorts_newest_first d k linkId n old entries :
  accesses_listeners d !! k = Some (linkId, n) ->
  arrays d !! n = Some old ->
  Forall numeric old ->
  Forall (fun kv => is_Some (own_timestamp (snd kv)) \/ is_Some (Number (fst kv))) entries ->
  exists shown,
    last (callback_calls (on_accesses_snapshot Number k (Some entries) d)) = Some shown /\
    newest_first shown /\
    (forall i j a b, i < j -> shown !! i = Some a -> shown !! j = Some b ->
       exists x y, la_timestamp a = Some x /\ la_timestamp b = Some y /\ (y <= x)%Z).
Proof.
  intros Hk Hn Hold Hentries.
  rewrite (on_accesses_snapshot_run d k linkId n old entries Hk Hn). simpl.
  rewrite last_snoc. eexists. split; [reflexivity|].
  assert (Forall numeric (old ++ new_entries Number linkId entries)) as Hnum.
  { apply Forall_app. split; [done|]. unfold new_entries. apply Forall_fmap.
    eapply Forall_impl; [exact Hentries|]. intros [key data] H. unfold numeric. simpl in *.
    destruct (own_timestamp data); [by eexists|]. by destruct H as [[? ?]|?]. }
  pose proof (sort_newest_first_sorted _ Hnum) as Hsorted.
  split; [exact Hsorted|].
  assert (Forall numeric (sort_newest_first (old ++ new_entries Number linkId entries))) as Hnum'
    by (by rewrite sort_newest_first_perm).
  intros i j a b Hij Ha Hb.
  rewrite Forall_lookup in Hnum'.
  destruct (Hnum' _ _ Ha) as [x Hx], (Hnum' _ _ Hb) as [y Hy].
  exists x, y. split; [done|]. split; [done|].
  pose proof (strongly_sorted_lookup _ _ Hsorted i j a b Hij Ha Hb) as Hab.
  unfold newer in Hab. rewrite Hx, Hy in Hab. by apply Z.ltb_ge.
Qed.

(** X20.  For an empty [userId], [getLinkAccesses] calls the callback
    once with the empty list and subscribes to nothing: whatever the
    store delivers afterwards changes nothing. *)
Theorem getLinkAccesses_without_user evs :
  deliver_all Number evs (getLinkAccesses Payload "") = getLinkAccesses Payload "" /\
  callback_calls (getLinkAccesses Payload "") = [[]] /\
  links_listener (getLinkAccesses Payload "") = false.
Proof.
  split; [|done]. induction evs as [|ev evs IH]; [done|].
  unfold deliver_all in *. simpl. by destruct ev.
Qed.

Lemma lookup_map {A B : Type} (f : A -> B) (l : list A) i x :
  l !! i = Some x -> map f l !! i = Some (f x).
Proof.
  revert i. induction l as [|y l IH]; intros [|i]; simpl; try done.
  - by intros [= ->].
  - apply IH.
Qed.

(** X21.  The accesses listeners created by one links snapshot share one
    array: after a snapshot for link [j] and then one for link [k], the
    callback was called twice, first with the entries of [j], then with
    those of [j] and of [k] together. *)
Theorem accesses_listeners_share_one_array userId links j k lj xj lk xk A B :
  userId <> "" ->
  links !! j = Some (lj, xj) ->
  links !! k = Some (lk, xk) ->
  exists shown1 shown2,
    callback_calls
      (deliver_all Number
         [LinksSnapshot (Some links); AccessesSnapshot j (Some A);
          AccessesSnapshot k (Some B)]
         (getLinkAccesses Payload userId)) = [shown1; shown2] /\
    Permutation shown1 (new_entries Number lj A) /\
    Permutation shown2 (new_entries Number lj A ++ new_entries Number lk B).
Proof.
  intros Hne Hj Hk. unfold getLinkAccesses.
  destruct userId as [|c u]; [done|]. simpl.
  unfold deliver_all. simpl. unfold on_links_snapshot. simpl.
  rewrite (on_accesses_snapshot_run _ j lj 0 [] A);
    [|exact (lookup_map _ _ _ _ Hj)|reflexivity].
  rewrite (on_accesses_snapshot_run _ k lk 0
             (sort_newest_first ([] ++ new_entries Number lj A)) B);
    [|exact (lookup_map _ _ _ _ Hk)|reflexivity].
  simpl. eexists _, _. split; [reflexivity|]. split; [apply sort_newest_first_perm|].
  by rewrite !sort_newest_first_perm.
Qed.
End ListingFacts.

Lemma accesses_listener_accumulates_witness :
  exists shown,
    last (callback_calls
            (on_accesses_snapshot no_number 0 (Some example_snapshot)
               (on_accesses_snapshot no_number 0 (Some example_snapshot)
                  example_listing))) = Some shown /\
    length shown = 5.
Proof.
  pose proof (accesses_listener_accumulates no_number example_listing 0 "link1" 0
                [shown_access] example_snapshot eq_refl eq_refl) as H.
  cbv zeta in H. destruct H as (shown1 & shown2 & _ & _ & _ & Hlast & _ & Hlength).
  exists shown2. split; [exact Hlast|exact Hlength].
Defined.

Lemma accesses_listener_sorts_newest_first_witness :
  exists shown,
    last (callback_calls
            (on_accesses_snapshot no_number 0 (Some example_snapshot) example_listing)) =
      Some shown /\
    newest_first shown.
Proof.
  destruct (accesses_listener_sorts_newest_first no_number example_listing 0 "link1" 0
              [shown_access] example_snapshot eq_refl eq_refl)
    as (shown & Hlast & Hsorted & _).
  - constructor; [by eexists|constructor].
  - constructor; [left; by eexists|]. constructor; [left; by eexists|constructor].
  - exists shown. split; [exact Hlast|exact Hsorted].
Defined.

Lemma accesses_listeners_share_one_array_witness :
  exists shown1 shown2,
    callback_calls
      (deliver_all no_number
         [LinksSnapshot (Some example_links); AccessesSnapshot 0 (Some example_snapshot);
          AccessesSnapshot 1 (Some example_snapshot)]
         (getLinkAccesses unit "user1")) = [shown1; shown2] /\
    Permutation shown1 (new_entries no_number "link1" example_snapshot) /\
    Permutation shown2
      (new_entries no_number "link1" example_snapshot ++
       new_entries no_number "link2" example_snapshot).
Proof.
  apply (accesses_listeners_share_one_array no_number "user1" example_links 0 1
           "link1" {| userId := "user1"; createdAt := 1;
                      url := "https://example.org/track/link1" |}
           "link2" {| userId := "user1"; createdAt := 2;
                      url := "https://example.org/track/link2" |});
    [discriminate|reflexivity|reflexivity].
Defined.

(** ** generateLink *)

(** X22.  [generateLink] returns a URL only once the link is stored: the
    URL is [<origin>/track/<uuid>_<userId>] for a non-empty [userId], and
    [links/<uuid>_<userId>] then holds the user, the clock reading and
    that URL.  When it throws, the store is as it was, and the error is
    either its own authentication error (empty [userId]) or the
    store's. *)
Theorem generateLink_returns_only_stored_links env userId w :
  (forall u w', generateLink env userId w = (Returned u, w') ->
     userId <> "" /\
     u = (origin env ++ "/track/" ++ uuidv4 env ++ "_" ++ userId)%string /\
     store w' !! ("links/" ++ uuidv4 env ++ "_" ++ userId)%string =
       Some (DbLink {| userId := userId; createdAt := date_now env (clock w); url := u |})) /\
  (forall e w', generateLink env userId w = (Raised e, w') ->
     store w' = store w /\
     (e = NewError auth_message /\ userId = "" \/
      exists pe, e = Foreign pe /\
        (db_ref_error env ("links/" ++ uuidv4 env ++ "_" ++ userId)%string = Some pe \/
         db_write env ("links/" ++ uuidv4 env ++ "_" ++ userId)%string = Some pe))).
Proof.
  unfold generateLink, db_ref, db_set, Date_now.
  destruct userId as [|c u]; simpl.
  - split; [done|]. intros e w' [= <- <-]. auto.
  - run_service.
    destruct (db_ref_error env _) as [pe|] eqn:Href; simpl;
      [|destruct (db_write env _) as [pe|] eqn:Hwrite; simpl].
    + split; [done|]. intros e w' [= <- <-]. split; [done|].
      right. exists pe. auto.
    + split; [done|]. intros e w' [= <- <-]. split; [done|].
      right. exists pe. auto.
    + split; [|done]. intros u' w' [= <- <-]. split; [done|]. split; [done|].
      simpl. apply lookup_insert_eq.
Qed.

Lemma generateLink_returns_only_stored_links_witness :
  store (snd (generateLink scenario_env "user1" blank_world))
    !! "links/1b9d6bcd-bbfd-4b2d-9b5d-ab8dfbbd4bed_user1" =
  Some (DbLink {| userId := "user1"; createdAt := 1700000000000;
                  url := "https://example.org/track/1b9d6bcd-bbfd-4b2d-9b5d-ab8dfbbd4bed_user1" |}).
Proof.
  destruct (generateLink_returns_only_stored_links scenario_env "user1" blank_world)
    as (Hreturned & _).
  destruct (Hreturned
              "https://example.org/track/1b9d6bcd-bbfd-4b2d-9b5d-ab8dfbbd4bed_user1"
              (snd (generateLink scenario_env "user1" blank_world))
              ltac:(vm_compute; reflexivity)) as (_ & _ & Hstored).
  exact Hstored.
Defined.

(** ** validateLink *)

(** X23.  Every call of [validateLink] whose store read does not throw
    registers one more listener and nothing removes it: two calls in a
    row resolve to two different handles, leave two more listeners
    registered, and leave the store as it was. *)
Theorem validateLink_listeners_pile_up env id1 id2 w :
  store_read_throws env (link_path id1) = false ->
  store_read_throws env (link_path id2) = false ->
  let first := validateLink env id1 w in
  let second := validateLink env id2 (snd first) in
  fst first = Returned (Unsubscribe (listeners w)) /\
  fst second = Returned (Unsubscribe (S (listeners w))) /\
  listeners (snd second) = S (S (listeners w)) /\
  store (snd second) = store w.
Proof.
  unfold validateLink, onValue, db_ref, store_read_throws, link_path. run_service.
  destruct (db_ref_error env ("links/" ++ id1)); [done|].
  destruct (db_subscribe env ("links/" ++ id1)); [done|].
  destruct (db_ref_error env ("links/" ++ id2)); [done|].
  destruct (db_subscribe env ("links/" ++ id2)); [done|].
  done.
Qed.

Lemma validateLink_listeners_pile_up_witness :
  fst (validateLink scenario_env "abc123_user1" blank_world) = Returned (Unsubscribe 0) /\
  fst (validateLink scenario_env "missing"
         (snd (validateLink scenario_env "abc123_user1" blank_world))) =
    Returned (Unsubscribe 1) /\
  listeners (snd (validateLink scenario_env "missing"
                    (snd (validateLink scenario_env "abc123_user1" blank_world)))) = 2 /\
  store (snd (validateLink scenario_env "missing"
                (snd (validateLink scenario_env "abc123_user1" blank_world)))) =
    store blank_world.
Proof.
  apply (validateLink_listeners_pile_up scenario_env "abc123_user1" "missing" blank_world);
    reflexivity.
Defined.
